(** * gwords: the vocabulary trainer, embedded and verified

    The repository holds two versions of the trainer component.

    - [Trainer] embeds the component held in [src/main.tsx]: a fixed word
      list [WORDS], statuses keyed by word, a summary view and persistence
      through [localStorage].
    - [Cards] embeds the component of [src/App.tsx]: the word list is
      fetched from [gwords.txt], statuses are keyed by position.

    A React event handler reads the values captured by the render it was
    created in and queues updates; the next render sees all of them.  A
    handler is therefore a function from the rendered state to the next
    state whose reads all go to the rendered state. *)

From Stdlib Require Import ZArith QArith Qminmax Lia Ascii String.
From stdpp Require Import base gmap strings list fin_maps pretty.

Set Warnings "-register-all".

Local Open Scope string_scope.
Local Open Scope Z_scope.

(** ** Array helpers of the JavaScript runtime *)

(** [Array.prototype.findIndex]: position of the first element satisfying
    [p], or [-1]. *)
Fixpoint findIndex {A} (p : A → bool) (l : list A) : Z :=
  match l with
  | [] => -1
  | x :: l' => if p x then 0 else
      let r := findIndex p l' in if r =? -1 then -1 else r + 1
  end.

(** [Array.prototype.indexOf] on strings. *)
Definition indexOf (w : string) (l : list string) : Z :=
  findIndex (λ x, bool_decide (x = w)) l.

(** [l[i]] for a number [i] that is an integer: [None] is [undefined]. *)
Definition at_index {A} (l : list A) (i : Z) : option A :=
  if 0 <=? i then l !! Z.to_nat i else None.

(** [l.length] as a JavaScript number. *)
Definition len {A} (l : list A) : Z := Z.of_nat (length l).

(** ** The trainer of [main.tsx] *)

Module Trainer.

(** [type Status = "correct" | "incorrect" | "skipped" | null]: a mark, or
    [null].  [Exclude<Status, null>] is [Mark]. *)
Inductive Mark := correct | incorrect | skipped.
Definition Status := option Mark.
Definition null : Status := None.

#[global] Instance Mark_eq_dec : EqDecision Mark.
Proof. solve_decision. Defined.

Inductive View := trainer | summary.

#[global] Instance View_eq_dec : EqDecision View.
Proof. solve_decision. Defined.

(** The three [useState] cells of the component.  [statuses !! w] is
    [None] when the object has no property [w] ([undefined]). *)
Record State := mkState {
  statuses : gmap string Status;
  index : Z;
  view : View
}.

Definition setStatuses (f : gmap string Status → gmap string Status) (st : State) : State :=
  mkState (f (statuses st)) (index st) (view st).
Definition setIndex (f : Z → Z) (st : State) : State :=
  mkState (statuses st) (f (index st)) (view st).
Definition setView (v : View) (st : State) : State :=
  mkState (statuses st) (index st) v.

(** The 25 words of the source. *)
Definition WORDS : list string :=
  ["knight"; "write"; "catch"; "phone"; "gnaw";
   "dream"; "bread"; "train"; "coach"; "green";
   "pie"; "thief"; "coin"; "toy";
   "start"; "storm"; "bird"; "fern"; "turn";
   "running"; "played"; "fearless"; "bigger"; "paper"; "music"].

(** [statuses[w] === null || statuses[w] === "skipped"] *)
Definition remaining_word (sts : gmap string Status) (w : string) : bool :=
  match sts !! w with
  | Some None => true
  | Some (Some skipped) => true
  | _ => false
  end.

(** The property key that [WORDS[index]] turns into. *)
Definition word_key (words : list string) (i : Z) : string :=
  match at_index words i with
  | Some w => w
  | None => "undefined"
  end.

(** The value of [groups]: three arrays of words. *)
Record Groups := mkGroups {
  g_correct : list string;
  g_incorrect : list string;
  notAnswered : list string
}.

Section Component.
(** The component is written against the constant [WORDS]; the word list
    is a variable here so that the same code runs on other lists.  Like
    those of [WORDS], the words are taken not to name a property that
    every object inherits (["constructor"], ["toString"], ...). *)
Variable words : list string.

(** [WORDS.forEach((w) => base[w] = null)] *)
Definition cleared : gmap string Status :=
  foldl (λ acc w, <[w := null]> acc) ∅ words.

(** State of the first render when nothing is stored. *)
Definition initial : State := mkState cleared 0 trainer.

(** [groups]: one pass over the words, pushing each on one of three
    arrays. *)
Definition groups (st : State) : Groups :=
  foldl (λ g w,
    match statuses st !! w with
    | Some (Some correct) => mkGroups (g_correct g ++ [w]) (g_incorrect g) (notAnswered g)
    | Some (Some incorrect) => mkGroups (g_correct g) (g_incorrect g ++ [w]) (notAnswered g)
    | _ => mkGroups (g_correct g) (g_incorrect g) (notAnswered g ++ [w])
    end) (mkGroups [] [] []) words.

Definition answeredCount (st : State) : Z :=
  len (g_correct (groups st)) + len (g_incorrect (groups st)).

Definition allDone (st : State) : bool :=
  len (notAnswered (groups st)) =? 0.

Definition nextIndex (st : State) (from : Z) : Z :=
  if from <? len words - 1 then from + 1
  else
    let remaining := findIndex (remaining_word (statuses st)) words in
    if remaining =? -1 then from else remaining.

Definition prev (st : State) : State :=
  setIndex (λ i, if 0 <? i then i - 1 else 0) st.

Definition next (st : State) : State :=
  let ni := nextIndex st (index st) in
  if ni =? index st then setView summary st else setIndex (λ _, ni) st.

Definition handleMark (mark : Mark) (st : State) : State :=
  let word := word_key words (index st) in
  let st1 := setStatuses (λ prev, <[word := Some mark]> prev) st in
  let ni := nextIndex st (index st) in
  if ni =? index st then setView summary st1 else setIndex (λ _, ni) st1.

Definition resetAll (st : State) : State :=
  setView trainer (setIndex (λ _, 0) (setStatuses (λ _, cleared) st)).

Definition jumpToWord (w : string) (st : State) : State :=
  let i := indexOf w words in
  if 0 <=? i then setView trainer (setIndex (λ _, i) st) else st.

End Component.

(** *** The keyboard and the buttons *)

(** [String.prototype.toLowerCase] on 8-bit code units: the letters A-Z
    and the capital letters of Latin-1 move up by 32. *)
Definition lower_char (c : ascii) : ascii :=
  let n := nat_of_ascii c in
  if ((65 <=? n) && (n <=? 90) || (192 <=? n) && (n <=? 214) || (216 <=? n) && (n <=? 222))%nat
  then ascii_of_nat (n + 32)
  else c.

Fixpoint toLowerCase (s : string) : string :=
  match s with
  | EmptyString => EmptyString
  | String c t => String (lower_char c) (toLowerCase t)
  end.

(** [if (b) h();] *)
Definition when (b : bool) (h : State → State) (st : State) : State :=
  if b then h st else st.

(** What the user can do: press a key, or click one of the buttons. *)
Inductive Event :=
  | KeyDown (key : string)
  | ClickMark (mark : Mark)
  | ClickPrev
  | ClickNext
  | ClickToggle
  | ClickReset
  | ClickWord (w : string).

Section Interface.
Variable words : list string.

(** The header button: [setView(view === "trainer" ? "summary" : "trainer")] *)
Definition toggleView (st : State) : State :=
  setView (match view st with trainer => summary | summary => trainer end) st.

(** The [keydown] listener.  The effect installs it in the trainer view
    only.  Its tests exclude one another, so that at most one of the
    handlers runs for a key. *)
Definition keydown (key : string) (st : State) : State :=
  match view st with
  | summary => st
  | trainer =>
      let k := toLowerCase key in
      let st := when (bool_decide (k = "c")) (handleMark words correct) st in
      let st := when (bool_decide (k = "x")) (handleMark words incorrect) st in
      let st := when (bool_decide (k = "s")) (handleMark words skipped) st in
      let st := when (bool_decide (key = "ArrowRight") || bool_decide (key = " ")) (next words) st in
      when (bool_decide (key = "ArrowLeft")) prev st
  end.

(** The events as the render wires them: the header buttons are always
    there; [TrainerView] (marks, Prev, and Next unless [allDone]) is
    rendered in the trainer view, [SummaryView] with its word buttons in
    the summary view.  An event on a button that is not rendered does not
    occur and is taken to do nothing. *)
Definition dispatch (e : Event) (st : State) : State :=
  match e, view st with
  | KeyDown key, _ => keydown key st
  | ClickToggle, _ => toggleView st
  | ClickReset, _ => resetAll words st
  | ClickMark m, trainer => handleMark words m st
  | ClickPrev, trainer => prev st
  | ClickNext, trainer => if allDone words st then st else next words st
  | ClickWord w, summary => jumpToWord words w st
  | _, _ => st
  end.

(** A session: the events in the order they happen. *)
Definition run (events : list Event) (st : State) : State :=
  foldl (λ s e, dispatch e s) st events.

End Interface.

(** *** Persistence: [loadStore] and [saveStore] *)

(** A JavaScript number: the value of a double.  The finite ones are
    rationals; [-0] is not told apart from [0], which no operation of
    [loadStore] can observe. *)
Inductive JSNumber := NaN | Infinity (negative : bool) | Finite (q : Q).

(** The values [JSON.parse] can return, and [undefined]. *)
Inductive JSValue :=
  | JUndefined
  | JNull
  | JBool (b : bool)
  | JNum (n : JSNumber)
  | JStr (s : string)
  | JArr (items : list JSValue)
  | JObj (props : list (string * JSValue)).

(** Statements that can throw: [Throw] is an exception on its way to the
    nearest [catch]. *)
Inductive Exc (A : Type) := Ret (a : A) | Throw.
Arguments Ret {A} a.
Arguments Throw {A}.

Definition bind {A B} (c : Exc A) (k : A → Exc B) : Exc B :=
  match c with Ret a => k a | Throw => Throw end.

Notation "x <- c ;;; k" := (bind c (λ x, k))
  (at level 100, c at next level, right associativity).

(** [try { body } catch { return dflt }] *)
Definition try_catch {A} (body : Exc A) (dflt : A) : A :=
  match body with Ret a => a | Throw => dflt end.

(** Own property of an object, first entry of the list. *)
Fixpoint own_prop (k : string) (props : list (string * JSValue)) : JSValue :=
  match props with
  | [] => JUndefined
  | (k', v) :: rest => if bool_decide (k' = k) then v else own_prop k rest
  end.

(** [v[k]] and [v.k] for a key [k] that no built-in prototype defines and
    that is neither an array index nor ["length"]: such a key is found on
    plain objects only.  Reading from [null] or [undefined] is a
    [TypeError]. *)
Definition get_prop (v : JSValue) (k : string) : Exc JSValue :=
  match v with
  | JUndefined | JNull => Throw
  | JObj props => Ret (own_prop k props)
  | _ => Ret JUndefined
  end.

(** [v?.[k]], for the same keys. *)
Definition opt_prop (v : JSValue) (k : string) : JSValue :=
  match v with
  | JObj props => own_prop k props
  | _ => JUndefined
  end.

(** [a ?? b] *)
Definition nullish (a b : JSValue) : JSValue :=
  match a with
  | JUndefined | JNull => b
  | _ => a
  end.

(** [s === "correct" || s === "incorrect" || s === "skipped" ? s : null] *)
Definition coerce_status (s : JSValue) : Status :=
  match s with
  | JStr t =>
      if bool_decide (t = "correct") then Some correct
      else if bool_decide (t = "incorrect") then Some incorrect
      else if bool_decide (t = "skipped") then Some skipped
      else null
  | _ => null
  end.

(** [n || 0] on numbers: [NaN] and zero are falsy. *)
Definition or_zero (n : JSNumber) : JSNumber :=
  match n with
  | NaN => Finite 0
  | Infinity _ => n
  | Finite q => if Qeq_bool q 0 then Finite 0 else n
  end.

Definition Math_max (a b : JSNumber) : JSNumber :=
  match a, b with
  | NaN, _ | _, NaN => NaN
  | Infinity false, _ | _, Infinity false => Infinity false
  | Infinity true, x | x, Infinity true => x
  | Finite p, Finite q => if Qle_bool p q then b else a
  end.

Definition Math_min (a b : JSNumber) : JSNumber :=
  match a, b with
  | NaN, _ | _, NaN => NaN
  | Infinity true, _ | _, Infinity true => Infinity true
  | Infinity false, x | x, Infinity false => x
  | Finite p, Finite q => if Qle_bool p q then a else b
  end.

Definition of_Z (z : Z) : JSNumber := Finite (inject_Z z).

(** [type StoreShape = { statuses: Record<string, Status>; index: number }] *)
Record StoreShape := mkStore {
  store_statuses : gmap string Status;
  store_index : JSNumber
}.

Definition STORAGE_KEY : string := "vocab_trainer_progress_v1".

(** The [localStorage] port: the stored items, the longest value it
    accepts, and whether access is denied altogether. *)
Record Storage := mkStorage {
  items : gmap string string;
  quota : nat;
  denied : bool
}.

Definition getItem (ls : Storage) (k : string) : Exc (option string) :=
  if denied ls then Throw else Ret (items ls !! k).

Definition setItem (ls : Storage) (k v : string) : Exc Storage :=
  if denied ls then Throw
  else if (quota ls <? String.length v)%nat then Throw
  else Ret (mkStorage (<[k := v]> (items ls)) (quota ls) (denied ls)).

Definition status_to_js (s : Status) : JSValue :=
  match s with
  | Some correct => JStr "correct"
  | Some incorrect => JStr "incorrect"
  | Some skipped => JStr "skipped"
  | None => JNull
  end.

(** The object literal [{ statuses, index }] as a value. *)
Definition store_to_js (data : StoreShape) : JSValue :=
  JObj [("statuses", JObj (prod_map id status_to_js <$> map_to_list (store_statuses data)));
        ("index", JNum (store_index data))].

Section Persistence.
Variable words : list string.

(** The runtime's JSON codec and, for [Number(v)], its conversion of
    strings, arrays and objects to numbers.  That conversion can throw: an
    object that cannot be turned into a primitive value is a [TypeError]. *)
Variable JSON_parse : string → Exc JSValue.
Variable JSON_stringify : JSValue → Exc string.
Variable ToNumber_other : JSValue → Exc JSNumber.

(** [Number(v)] *)
Definition Number (v : JSValue) : Exc JSNumber :=
  match v with
  | JUndefined => Ret NaN
  | JNull => Ret (Finite 0)
  | JBool b => Ret (if b then Finite 1 else Finite 0)
  | JNum n => Ret n
  | _ => ToNumber_other v
  end.

(** The body of [WORDS.forEach] in [loadStore], one iteration. *)
Definition load_status (parsed : JSValue) (acc : gmap string Status) (w : string)
  : Exc (gmap string Status) :=
  sts <- get_prop parsed "statuses" ;;;
  let s := nullish (opt_prop sts w) JNull in
  Ret (<[w := coerce_status s]> acc).

Fixpoint forEach {A} (f : A → string → Exc A) (acc : A) (l : list string) : Exc A :=
  match l with
  | [] => Ret acc
  | w :: l' => acc' <- f acc w ;;; forEach f acc' l'
  end.

Definition loadStore (ls : Storage) : option StoreShape :=
  try_catch
    (raw <- getItem ls STORAGE_KEY ;;;
     match raw with
     | None | Some EmptyString => Ret None
     | Some raw =>
         parsed <- JSON_parse raw ;;;
         statuses <- forEach (load_status parsed) ∅ words ;;;
         i <- get_prop parsed "index" ;;;
         n <- Number i ;;;
         let index := Math_min (Math_max (or_zero n) (of_Z 0)) (of_Z (len words - 1)) in
         Ret (Some (mkStore statuses index))
     end)
    None.

Definition saveStore (data : StoreShape) (ls : Storage) : Storage :=
  try_catch
    (text <- JSON_stringify (store_to_js data) ;;;
     setItem ls STORAGE_KEY text)
    ls.

(** [useEffect(() => { saveStore({ statuses, index }); }, [statuses, index])] *)
Definition persist (st : State) (ls : Storage) : Storage :=
  saveStore (mkStore (statuses st) (of_Z (index st))) ls.

(** The initializer of the [statuses] cell: the loaded statuses, or every
    word [null]. *)
Definition start_statuses (ls : Storage) : gmap string Status :=
  match loadStore ls with
  | Some loaded => store_statuses loaded
  | None => cleared words
  end.

(** The initializer of the [index] cell: [loadStore()?.index ?? 0]. *)
Definition start_index (ls : Storage) : JSNumber :=
  match loadStore ls with
  | Some loaded => store_index loaded
  | None => of_Z 0
  end.

End Persistence.

End Trainer.

(** ** The trainer of [App.tsx] *)

Module Cards.

(** A JavaScript string: its UTF-16 code units. *)
Definition jsstring := list N.

(** [type Status = "unanswered" | "correct" | "incorrect" | "skipped"] *)
Inductive Status := unanswered | correct | incorrect | skipped.

#[global] Instance Status_eq_dec : EqDecision Status.
Proof. solve_decision. Defined.

(** White space and line terminators, the code units [trim] strips. *)
Definition is_space (c : N) : bool :=
  ((9 <=? c) && (c <=? 13) || (c =? 32) || (c =? 160) || (c =? 5760)
   || (8192 <=? c) && (c <=? 8202) || (c =? 8232) || (c =? 8233)
   || (c =? 8239) || (c =? 8287) || (c =? 12288) || (c =? 65279))%N.

Fixpoint trimStart (s : jsstring) : jsstring :=
  match s with
  | [] => []
  | c :: s' => if is_space c then trimStart s' else s
  end.

Definition trimEnd (s : jsstring) : jsstring := reverse (trimStart (reverse s)).

Definition trim (s : jsstring) : jsstring := trimEnd (trimStart s).

(** [txt.split(/\r?\n/)]: every line feed ends a piece, and a carriage
    return right before it belongs to the separator. *)
Fixpoint split_lines (txt : jsstring) : list jsstring :=
  match txt with
  | [] => [[]]
  | c :: rest =>
      let pieces := split_lines rest in
      if (c =? 10)%N then [] :: pieces
      else if (c =? 13)%N && bool_decide (head rest = Some 10%N) then pieces
      else match pieces with
           | p :: ps => (c :: p) :: ps
           | [] => [[c]]
           end
  end.

Definition parseWords (txt : jsstring) : list jsstring :=
  take 100 (List.filter (λ l, 0 <? len l) (map trim (split_lines txt))).

(** What [fetch] hands back: a rejection, or a response with its [ok]
    flag, status code and body text. *)
Inductive Fetched :=
  | NetworkFailure
  | Response (ok : bool) (status : Z) (text : jsstring).

(** The errors [loadTxt] throws: [Failed to load gwords.txt (status)],
    [gwords.txt has no words], or the rejection of [fetch] itself. *)
Inductive LoadError :=
  | FetchRejected
  | FailedToLoad (status : Z)
  | NoWords.

Definition loadTxt (r : Fetched) : LoadError + list jsstring :=
  match r with
  | NetworkFailure => inl FetchRejected
  | Response ok status txt =>
      if negb ok then inl (FailedToLoad status)
      else
        let words := parseWords txt in
        if len words =? 0 then inl NoWords else inr words
  end.

Record State := mkState {
  words : list jsstring;
  statuses : gmap Z Status;
  index : Z
}.

Definition setWords (w : list jsstring) (st : State) : State :=
  mkState w (statuses st) (index st).
Definition setStatuses (f : gmap Z Status → gmap Z Status) (st : State) : State :=
  mkState (words st) (f (statuses st)) (index st).
Definition setIndex (f : Z → Z) (st : State) : State :=
  mkState (words st) (statuses st) (f (index st)).

Definition initial : State := mkState [] ∅ 0.

(** The mount effect: [loadTxt().then(setWords).catch(console.error)];
    the second component is what goes to the console. *)
Definition mount (r : Fetched) (st : State) : State * list LoadError :=
  match loadTxt r with
  | inr w => (setWords w st, [])
  | inl e => (st, [e])
  end.

(** [statuses[i] !== "correct"] *)
Definition not_correct (sts : gmap Z Status) (i : Z) : bool :=
  negb (bool_decide (sts !! i = Some correct)).

(** The two [for] loops: the first [i] of [start+1 .. length-1], else of
    [0 .. start], whose status is not ["correct"]; [None] when both loops
    run to their end. *)
Definition nextUnfinished (start : Z) (st : State) : option Z :=
  match List.find (not_correct (statuses st)) (seqZ (start + 1) (len (words st) - (start + 1))) with
  | Some i => Some i
  | None => List.find (not_correct (statuses st)) (seqZ 0 (start + 1))
  end.

(** [goToNextUnfinished(start)] reads [words] and [statuses] of the
    rendered state and queues [setIndex(i)] on top of the updates already
    pending. *)
Definition goToNextUnfinished (start : Z) (rendered pending : State) : State :=
  match nextUnfinished start rendered with
  | Some i => setIndex (λ _, i) pending
  | None => pending
  end.

Definition updateStatus (status : Status) (st : State) : State :=
  let pending := setStatuses (λ prev, <[index st := status]> prev) st in
  if bool_decide (status = correct)
  then goToNextUnfinished (index st) st pending
  else pending.

Definition goPrev (st : State) : State :=
  setIndex (λ i, if 0 <? i then i - 1 else len (words st) - 1) st.

Definition goNext (st : State) : State := goToNextUnfinished (index st) st st.

(** The Reset button: [setStatuses({}); setIndex(0)] *)
Definition reset (st : State) : State :=
  setIndex (λ _, 0) (setStatuses (λ _, ∅) st).

(** The Summary button: [setIndex(0)] *)
Definition showFirst (st : State) : State := setIndex (λ _, 0) st.

(** [if (words.length === 0) return <div>Loading words…</div>] *)
Definition loading (st : State) : bool := len (words st) =? 0.

(** [words[index]], the word on the card. *)
Definition shownWord (st : State) : option jsstring := at_index (words st) (index st).

End Cards.

(** ** A reference JSON codec

    [JSON.parse] and [JSON.stringify] belong to the runtime; the trainer's
    code is verified for any codec.  The codec below reads JSON texts
    (strings limited to 8-bit code units) and writes the documents
    [saveStore] produces; it instantiates the runtime in the examples. *)

Module JSONRef.
Import Trainer.

Definition dquote : ascii := ascii_of_nat 34.
Definition backslash : ascii := ascii_of_nat 92.

Definition is_digit (c : ascii) : bool :=
  let n := nat_of_ascii c in ((48 <=? n) && (n <=? 57))%nat.

Definition digit_val (c : ascii) : Z := Z.of_nat (nat_of_ascii c) - 48.

Definition is_json_ws (c : ascii) : bool :=
  let n := nat_of_ascii c in ((n =? 32) || (n =? 9) || (n =? 10) || (n =? 13))%nat.

Fixpoint skip_ws (s : list ascii) : list ascii :=
  match s with
  | c :: s' => if is_json_ws c then skip_ws s' else s
  | [] => []
  end.

(** Leading digits of [s]: their value, their count, the rest. *)
Fixpoint digits (acc : Z) (n : nat) (s : list ascii) : Z * nat * list ascii :=
  match s with
  | c :: s' => if is_digit c then digits (10 * acc + digit_val c) (S n) s' else (acc, n, s)
  | [] => (acc, n, s)
  end.

Definition hex_val (c : ascii) : option Z :=
  let n := Z.of_nat (nat_of_ascii c) in
  if (48 <=? n) && (n <=? 57) then Some (n - 48)
  else if (65 <=? n) && (n <=? 70) then Some (n - 55)
  else if (97 <=? n) && (n <=? 102) then Some (n - 87)
  else None.

(** [-? int frac? exp?] *)
Definition parse_number (s : list ascii) : option (JSNumber * list ascii) :=
  let '(neg, s1) := match s with
                    | "-"%char :: s' => (true, s')
                    | _ => (false, s)
                    end in
  let '(ip, n, s2) := digits 0 0 s1 in
  if (n =? 0)%nat then None
  else if (1 <? n)%nat && bool_decide (head s1 = Some "0"%char) then None
  else
    let frac := match s2 with
                | "."%char :: s' =>
                    let '(fp, k, s3) := digits 0 0 s' in
                    if (k =? 0)%nat then None
                    else Some ((inject_Z fp / inject_Z (10 ^ Z.of_nat k))%Q, s3)
                | _ => Some (0%Q, s2)
                end in
    match frac with
    | None => None
    | Some (f, s3) =>
        let expo := match s3 with
                    | c :: s' =>
                        if bool_decide (c = "e"%char ∨ c = "E"%char) then
                          let '(eneg, s4) := match s' with
                                             | "-"%char :: t => (true, t)
                                             | "+"%char :: t => (false, t)
                                             | _ => (false, s')
                                             end in
                          let '(ev, k, s5) := digits 0 0 s4 in
                          if (k =? 0)%nat then None
                          else Some (if eneg then - ev else ev, s5)
                        else Some (0, s3)
                    | [] => Some (0, s3)
                    end in
        match expo with
        | None => None
        | Some (e, rest) =>
            let m := (inject_Z ip + f)%Q in
            let v := (m * Qpower (inject_Z 10) e)%Q in
            Some (Finite (if neg then Qopp v else v), rest)
        end
    end.

(** The characters of a string literal up to its closing quote. *)
Fixpoint parse_chars (fuel : nat) (s : list ascii) : option (string * list ascii) :=
  match fuel with
  | O => None
  | S fuel =>
      let cons (c : ascii) (rest : list ascii) :=
        match parse_chars fuel rest with
        | Some (t, r) => Some (String c t, r)
        | None => None
        end in
      match s with
      | [] => None
      | c :: rest =>
          if bool_decide (c = dquote) then Some (EmptyString, rest)
          else if bool_decide (c = backslash) then
            match rest with
            | [] => None
            | e :: rest =>
                if bool_decide (e = dquote) then cons dquote rest
                else if bool_decide (e = backslash) then cons backslash rest
                else if bool_decide (e = "/"%char) then cons "/"%char rest
                else if bool_decide (e = "b"%char) then cons (ascii_of_nat 8) rest
                else if bool_decide (e = "f"%char) then cons (ascii_of_nat 12) rest
                else if bool_decide (e = "n"%char) then cons (ascii_of_nat 10) rest
                else if bool_decide (e = "r"%char) then cons (ascii_of_nat 13) rest
                else if bool_decide (e = "t"%char) then cons (ascii_of_nat 9) rest
                else if bool_decide (e = "u"%char) then
                  match rest with
                  | a :: b :: c :: d :: rest' =>
                      match hex_val a, hex_val b, hex_val c, hex_val d with
                      | Some 0, Some 0, Some x, Some y =>
                          cons (ascii_of_nat (Z.to_nat (16 * x + y))) rest'
                      | _, _, _, _ => None
                      end
                  | _ => None
                  end
                else None
            end
          else if (nat_of_ascii c <? 32)%nat then None
          else cons c rest
      end
  end.

Definition expect (lit : string) (v : JSValue) (s : list ascii) : option (JSValue * list ascii) :=
  let l := list_ascii_of_string lit in
  if bool_decide (take (length l) s = l) then Some (v, drop (length l) s) else None.

(** Writing a key again replaces its value and keeps its place. *)
Fixpoint set_prop (k : string) (v : JSValue) (props : list (string * JSValue)) :=
  match props with
  | [] => [(k, v)]
  | (k', v') :: rest => if bool_decide (k' = k) then (k, v) :: rest else (k', v') :: set_prop k v rest
  end.

Definition starts_with (c : ascii) (s : list ascii) : bool :=
  bool_decide (head s = Some c).

Fixpoint parse_value (fuel : nat) (s : list ascii) : option (JSValue * list ascii) :=
  match fuel with
  | O => None
  | S fuel =>
      let s := skip_ws s in
      if starts_with "n"%char s then expect "null" JNull s
      else if starts_with "t"%char s then expect "true" (JBool true) s
      else if starts_with "f"%char s then expect "false" (JBool false) s
      else if starts_with dquote s then
        match parse_chars (length s) (tail s) with
        | Some (t, r) => Some (JStr t, r)
        | None => None
        end
      else if starts_with "["%char s then
        if starts_with "]"%char (skip_ws (tail s)) then Some (JArr [], tail (skip_ws (tail s)))
        else match parse_elems fuel (tail s) with
             | Some (l, r) => Some (JArr l, r)
             | None => None
             end
      else if starts_with "{"%char s then
        if starts_with "}"%char (skip_ws (tail s)) then Some (JObj [], tail (skip_ws (tail s)))
        else match parse_members fuel [] (tail s) with
             | Some (l, r) => Some (JObj l, r)
             | None => None
             end
      else
        match parse_number s with
        | Some (n, r) => Some (JNum n, r)
        | None => None
        end
  end
with parse_elems (fuel : nat) (s : list ascii) : option (list JSValue * list ascii) :=
  match fuel with
  | O => None
  | S fuel =>
      match parse_value fuel s with
      | None => None
      | Some (v, r) =>
          let r := skip_ws r in
          if starts_with ","%char r then
            match parse_elems fuel (tail r) with
            | Some (l, r') => Some (v :: l, r')
            | None => None
            end
          else if starts_with "]"%char r then Some ([v], tail r)
          else None
      end
  end
with parse_members (fuel : nat) (acc : list (string * JSValue)) (s : list ascii)
  : option (list (string * JSValue) * list ascii) :=
  match fuel with
  | O => None
  | S fuel =>
      let s := skip_ws s in
      if starts_with dquote s then
        match parse_chars (length s) (tail s) with
        | None => None
        | Some (k, r) =>
            let r := skip_ws r in
            if starts_with ":"%char r then
              match parse_value fuel (tail r) with
              | None => None
              | Some (v, r2) =>
                  let r2 := skip_ws r2 in
                  if starts_with ","%char r2 then parse_members fuel (set_prop k v acc) (tail r2)
                  else if starts_with "}"%char r2 then Some (set_prop k v acc, tail r2)
                  else None
              end
            else None
        end
      else None
  end.

(** [JSON.parse]: a [SyntaxError] unless the whole text is one value. *)
Definition parse (text : string) : Exc JSValue :=
  let s := list_ascii_of_string text in
  match parse_value (S (length s)) s with
  | Some (v, r) => match skip_ws r with [] => Ret v | _ => Throw end
  | None => Throw
  end.

(** *** Writing *)

Definition hex_digit (n : nat) : ascii :=
  ascii_of_nat (if (n <? 10)%nat then 48 + n else 87 + n).

Definition escape_char (c : ascii) : string :=
  let n := nat_of_ascii c in
  if bool_decide (c = dquote) then String backslash (String dquote EmptyString)
  else if bool_decide (c = backslash) then String backslash (String backslash EmptyString)
  else if (n =? 8)%nat then String backslash "b"
  else if (n =? 12)%nat then String backslash "f"
  else if (n =? 10)%nat then String backslash "n"
  else if (n =? 13)%nat then String backslash "r"
  else if (n =? 9)%nat then String backslash "t"
  else if (n <? 32)%nat then
    String backslash ("u00" ++ String (hex_digit (n / 16)) (String (hex_digit (n mod 16)) EmptyString))
  else String c EmptyString.

Fixpoint escape (s : string) : string :=
  match s with
  | EmptyString => EmptyString
  | String c t => escape_char c ++ escape t
  end.

Definition quote (s : string) : string :=
  String dquote (escape s ++ String dquote EmptyString).

(** Numbers: [NaN] and the infinities are written [null]; of the finite
    ones the integers are written, in decimal. *)
Definition print_number (n : JSNumber) : option string :=
  match n with
  | NaN | Infinity _ => Some "null"
  | Finite q =>
      if (Qnum q mod Zpos (Qden q) =? 0) then Some (pretty (Qnum q / Zpos (Qden q))) else None
  end.

Definition join (sep : string) (l : list string) : string :=
  match l with
  | [] => EmptyString
  | x :: l' => foldl (λ acc y, acc ++ sep ++ y) x l'
  end.

Definition sequence {A} (l : list (option A)) : option (list A) :=
  foldr (λ o acc, match o, acc with Some x, Some xs => Some (x :: xs) | _, _ => None end) (Some []) l.

(** A property whose value is [undefined] is left out of an object; an
    array writes [null] in its place. *)
Fixpoint print (v : JSValue) : option string :=
  match v with
  | JUndefined => None
  | JNull => Some "null"
  | JBool b => Some (if b then "true" else "false")
  | JNum n => print_number n
  | JStr s => Some (quote s)
  | JArr l =>
      match sequence (map (λ x, match x with JUndefined => Some "null" | _ => print x end) l) with
      | Some ts => Some ("[" ++ join "," ts ++ "]")
      | None => None
      end
  | JObj props =>
      match sequence (map (λ '(k, x), match x with
                                      | JUndefined => Some None
                                      | _ => match print x with
                                             | Some t => Some (Some (quote k ++ ":" ++ t))
                                             | None => None
                                             end
                                      end) props) with
      | Some ts => Some ("{" ++ join "," (omap id ts) ++ "}")
      | None => None
      end
  end.

(** [JSON.stringify] on the values the codec writes. *)
Definition stringify (v : JSValue) : Exc string :=
  match print v with
  | Some t => Ret t
  | None => Throw
  end.

(** *** [Number] of strings, arrays and objects *)

(** The white space around a numeric string, among 8-bit code units. *)
Definition is_str_ws (c : ascii) : bool :=
  let n := nat_of_ascii c in
  ((9 <=? n) && (n <=? 13) || (n =? 32) || (n =? 160))%nat.

Fixpoint drop_str_ws (s : list ascii) : list ascii :=
  match s with
  | c :: s' => if is_str_ws c then drop_str_ws s' else s
  | [] => []
  end.

Definition trim_str_ws (s : list ascii) : list ascii :=
  reverse (drop_str_ws (reverse (drop_str_ws s))).

(** Leading digits of [s] in base [b]: their value, their count, the
    rest. *)
Fixpoint based_digits (b acc : Z) (n : nat) (s : list ascii) : Z * nat * list ascii :=
  match s with
  | c :: s' =>
      match hex_val c with
      | Some d => if d <? b then based_digits b (b * acc + d) (S n) s' else (acc, n, s)
      | None => (acc, n, s)
      end
  | [] => (acc, n, s)
  end.

(** The digits of [0x..], [0o..] and [0b..]. *)
Definition based_literal (b : Z) (s : list ascii) : JSNumber :=
  let '(v, n, rest) := based_digits b 0 0 s in
  if (0 <? n)%nat && bool_decide (rest = []) then of_Z v else NaN.

(** A signed decimal literal: [Infinity], or digits with an optional
    fraction and exponent, the digits on one side of the point at least.
    The value is exact, not rounded to a double. *)
Definition decimal_literal (s : list ascii) : JSNumber :=
  let '(neg, s1) := match s with
                    | "-"%char :: s' => (true, s')
                    | "+"%char :: s' => (false, s')
                    | _ => (false, s)
                    end in
  if bool_decide (s1 = list_ascii_of_string "Infinity") then Infinity neg
  else
    let '(ip, n, s2) := digits 0 0 s1 in
    let '(fp, k, s3) := match s2 with
                        | "."%char :: s' => digits 0 0 s'
                        | _ => (0, 0%nat, s2)
                        end in
    if (n + k =? 0)%nat then NaN
    else
      let expo := match s3 with
                  | [] => Some 0
                  | c :: s' =>
                      if bool_decide (c = "e"%char ∨ c = "E"%char) then
                        let '(eneg, s4) := match s' with
                                           | "-"%char :: t => (true, t)
                                           | "+"%char :: t => (false, t)
                                           | _ => (false, s')
                                           end in
                        let '(ev, j, s5) := digits 0 0 s4 in
                        if (0 <? j)%nat && bool_decide (s5 = [])
                        then Some (if eneg then - ev else ev)
                        else None
                      else None
                  end in
      match expo with
      | None => NaN
      | Some e =>
          let m := (inject_Z ip + inject_Z fp / inject_Z (10 ^ Z.of_nat k))%Q in
          let v := (m * Qpower (inject_Z 10) e)%Q in
          Finite (if neg then Qopp v else v)
      end.

(** [Number] of a string: the white space around it is dropped; the
    empty string is 0, a numeric literal its value, anything else
    [NaN]. *)
Definition string_to_number (s : string) : JSNumber :=
  let t := trim_str_ws (list_ascii_of_string s) in
  let radix (c : ascii) : option Z :=
    if bool_decide (c = "x"%char ∨ c = "X"%char) then Some 16
    else if bool_decide (c = "o"%char ∨ c = "O"%char) then Some 8
    else if bool_decide (c = "b"%char ∨ c = "B"%char) then Some 2
    else None in
  match t with
  | [] => Finite 0
  | "0"%char :: c :: rest =>
      match radix c with
      | Some b => based_literal b rest
      | None => decimal_literal t
      end
  | _ => decimal_literal t
  end.

Definition has_own (k : string) (props : list (string * JSValue)) : bool :=
  existsb (λ kv, bool_decide (kv.1 = k)) props.

(** Turning a value into a string throws for an object with a
    [toString] property of its own (no value of a JSON text is a
    function), and for an array with such an element. *)
Fixpoint throws_to_string (v : JSValue) : bool :=
  match v with
  | JObj props => has_own "toString" props
  | JArr l => existsb throws_to_string l
  | _ => false
  end.

(** [Number] of a string, an array or an object.  An object goes
    through its [toString]: a [TypeError] when the property is its own,
    and else the text [[object Object]], which is [NaN].  An array goes
    through [join]: of no element the empty string, of one element that
    element as a string, of more a text with a comma. *)
Fixpoint to_number_other (v : JSValue) : Exc JSNumber :=
  match v with
  | JStr s => Ret (string_to_number s)
  | JObj props => if has_own "toString" props then Throw else Ret NaN
  | JArr l =>
      match l with
      | [] => Ret (Finite 0)
      | [x] =>
          match x with
          | JUndefined | JNull => Ret (Finite 0)
          | JBool _ => Ret NaN
          | JNum n => Ret n
          | _ => to_number_other x
          end
      | _ => if existsb throws_to_string l then Throw else Ret NaN
      end
  | _ => Ret NaN
  end.

End JSONRef.

(** ** The statements of the specification *)

(** [r] is the nearest position strictly after [i] (wrapping at [n]) at
    which [P] holds: no position satisfying [P] is fewer steps ahead of
    [i].  The position [i] itself is the farthest, [n - 1] steps ahead. *)
Definition nearest_after (n : Z) (P : Z → Prop) (i r : Z) : Prop :=
  0 ≤ r < n ∧ P r ∧ ∀ j, 0 ≤ j < n → P j → (r - i - 1) mod n ≤ (j - i - 1) mod n.

(** The word at position [j] is unset ([null]) or skipped. *)
Definition unset_or_skipped (words : list string) (sts : gmap string Trainer.Status) (j : Z) : Prop :=
  ∃ w, at_index words j = Some w ∧
       (sts !! w = Some None ∨ sts !! w = Some (Some Trainer.skipped)).

(** [r] is the first position of the list with an unset or skipped word. *)
Definition first_remaining (words : list string) (sts : gmap string Trainer.Status) (r : Z) : Prop :=
  unset_or_skipped words sts r ∧ ∀ j, 0 ≤ j < r → ¬ unset_or_skipped words sts j.

(** The stricter variant: the status at position [j] is not correct. *)
Definition unfinished (sts : gmap Z Cards.Status) (j : Z) : Prop :=
  sts !! j ≠ Some Cards.correct.

(** The testable property of [mark], as the specification words it: the
    word is recorded correct and, if a word remains unset or skipped, the
    index is on the nearest such word after the marked one. *)
Definition mark_lands_on_nearest (words : list string) (st : Trainer.State) : Prop :=
  ∀ w, at_index words (Trainer.index st) = Some w →
    Trainer.statuses (Trainer.handleMark words Trainer.correct st) !! w = Some (Some Trainer.correct) ∧
    ((∃ j, unset_or_skipped words (Trainer.statuses (Trainer.handleMark words Trainer.correct st)) j) →
     nearest_after (len words)
       (unset_or_skipped words (Trainer.statuses (Trainer.handleMark words Trainer.correct st)))
       (Trainer.index st)
       (Trainer.index (Trainer.handleMark words Trainer.correct st))).

(** The search policy of [advance(next)], as the specification words it. *)
Definition next_lands_on_nearest (words : list string) (st : Trainer.State) : Prop :=
  (∃ j, unset_or_skipped words (Trainer.statuses st) j) →
  nearest_after (len words) (unset_or_skipped words (Trainer.statuses st))
    (Trainer.index st) (Trainer.index (Trainer.next words st)).

(** Completion, as the specification words it: in a complete session
    [next] and [mark] keep the index and open the summary. *)
Definition complete_stays_put (words : list string) (st : Trainer.State) : Prop :=
  Trainer.allDone words st = true →
  Trainer.next words st = Trainer.setView Trainer.summary st ∧
  ∀ m, Trainer.index (Trainer.handleMark words m st) = Trainer.index st ∧
       Trainer.view (Trainer.handleMark words m st) = Trainer.summary.

(** Every word marked [m]. *)
Definition all_marked (words : list string) (m : Trainer.Mark) : gmap string Trainer.Status :=
  foldl (λ acc w, <[w := Some m]> acc) ∅ words.

(** The word is resolved: marked correct or incorrect. *)
Definition answered (st : Trainer.State) (w : string) : bool :=
  match Trainer.statuses st !! w with
  | Some (Some Trainer.correct) | Some (Some Trainer.incorrect) => true
  | _ => false
  end.

(** The scenario of the specification: the words cat, dog, bird, and the
    states after marking cat correct, dog skipped and bird correct. *)
Definition scenario_words : list string := ["cat"; "dog"; "bird"].
Definition scenario_0 : Trainer.State := Trainer.initial scenario_words.
Definition scenario_1 : Trainer.State := Trainer.handleMark scenario_words Trainer.correct scenario_0.
Definition scenario_2 : Trainer.State := Trainer.handleMark scenario_words Trainer.skipped scenario_1.
Definition scenario_3 : Trainer.State := Trainer.handleMark scenario_words Trainer.correct scenario_2.

(** A line is blank when it holds white space only. *)
Definition blank (l : Cards.jsstring) : bool := forallb Cards.is_space l.

(** [w] is the word of the line [l]: the line without the white space
    around it, which is not empty. *)
Definition word_of_line (l w : Cards.jsstring) : Prop :=
  (∃ pre suf, l = (pre ++ w ++ suf)%list ∧ blank pre = true ∧ blank suf = true)
  ∧ (∃ c, head w = Some c ∧ Cards.is_space c = false)
  ∧ (∃ c, last w = Some c ∧ Cards.is_space c = false).

(** The word source, as the specification words it: one word per line,
    blank lines ignored, order kept, at most 100 entries. *)
Definition words_of_lines (lines : list Cards.jsstring) : list Cards.jsstring :=
  take 100 (omap (λ l, if blank l then None else Some (Cards.trim l)) lines).

(** Clamping a number into [0, n-1], as the specification words it; what
    is not a number goes to the lower end. *)
Definition clamp_index (n : Z) (x : Trainer.JSNumber) : Trainer.JSNumber :=
  match x with
  | Trainer.NaN => Trainer.of_Z 0
  | Trainer.Infinity negative => if negative then Trainer.of_Z 0 else Trainer.of_Z (n - 1)
  | Trainer.Finite q =>
      if negb (Qle_bool 0 q) then Trainer.of_Z 0
      else if negb (Qle_bool q (inject_Z (n - 1))) then Trainer.of_Z (n - 1)
      else x
  end.


(** A number of the range [0, n-1]. *)
Definition in_index_range (n : Z) (x : Trainer.JSNumber) : Prop :=
  ∃ q, x = Trainer.Finite q ∧ (0 <= q)%Q ∧ (q <= inject_Z (n - 1))%Q.

(** [parsed.statuses?.[w]], the value stored for the word [w]. *)
Definition stored_status (parsed : Trainer.JSValue) (w : string) : Trainer.JSValue :=
  Trainer.opt_prop (Trainer.opt_prop parsed "statuses") w.

Definition mark_name (m : Trainer.Mark) : string :=
  match m with
  | Trainer.correct => "correct"
  | Trainer.incorrect => "incorrect"
  | Trainer.skipped => "skipped"
  end.

(** A stored value has the shape of a [StoreShape]: an object whose
    [statuses] is an object and whose [index] is a number. *)
Definition store_shaped (v : Trainer.JSValue) : bool :=
  match v with
  | Trainer.JObj props =>
      match Trainer.own_prop "statuses" props, Trainer.own_prop "index" props with
      | Trainer.JObj _, Trainer.JNum _ => true
      | _, _ => false
      end
  | _ => false
  end.

(** A store that holds [raw] under the key of the trainer. *)
Definition holding (raw : string) : Trainer.Storage :=
  Trainer.mkStorage {[Trainer.STORAGE_KEY := raw]} 0 false.

(** The load contract, as the specification words it: a stored value that
    is malformed makes [load] return [null]. *)
Definition malformed_loads_null (words : list string) (parse : string → Trainer.Exc Trainer.JSValue)
    (conv : Trainer.JSValue → Trainer.Exc Trainer.JSNumber) (raw : string) : Prop :=
  ∀ parsed, parse raw = Trainer.Ret parsed → store_shaped parsed = false →
    Trainer.loadStore words parse conv (holding raw) = None.




(** The state written at the end of the scenario. *)
Definition scenario_store : Trainer.StoreShape :=
  Trainer.mkStore (Trainer.statuses scenario_3) (Trainer.of_Z (Trainer.index scenario_3)).

(** A stored text with a word marked correct, a status that is no mark,
    a key that is no word and an index beyond the list. *)
Definition stored_sample : string :=
  "{" ++ JSONRef.quote "statuses" ++ ":{"
      ++ JSONRef.quote "knight" ++ ":" ++ JSONRef.quote "correct" ++ ","
      ++ JSONRef.quote "write" ++ ":" ++ JSONRef.quote "done" ++ ","
      ++ JSONRef.quote "zebra" ++ ":" ++ JSONRef.quote "skipped" ++ "},"
      ++ JSONRef.quote "index" ++ ":99}".

(** A stored text whose index is an object that no conversion turns into
    a number. *)
Definition stored_unconvertible : string :=
  "{" ++ JSONRef.quote "index" ++ ":{" ++ JSONRef.quote "toString" ++ ":5}}".

(** A stored text whose index is [true]. *)
Definition stored_true_index : string :=
  "{" ++ JSONRef.quote "index" ++ ":true}".

(** The scenario on the trainer of [App.tsx]: the words cat, dog, bird as
    code units, and the states after marking cat correct, then dog
    skipped, then pressing Next, then marking bird correct. *)
Definition cards_words : list Cards.jsstring :=
  [[99; 97; 116]; [100; 111; 103]; [98; 105; 114; 100]]%N.
Definition cards_0 : Cards.State := Cards.mkState cards_words ∅ 0.
Definition cards_1 : Cards.State := Cards.updateStatus Cards.correct cards_0.
Definition cards_2 : Cards.State := Cards.updateStatus Cards.skipped cards_1.
Definition cards_3 : Cards.State := Cards.updateStatus Cards.correct (Cards.goNext cards_2).

(** The second step of the scenario, as the specification words it:
    marking dog skipped moves the index to position 2. *)
Definition skip_moves_to_bird (c : Cards.State) : Prop :=
  Cards.index (Cards.updateStatus Cards.skipped c) = 2.

(** A line of a text: no line feed inside and no carriage return at its
    end. *)
Definition text_line (l : Cards.jsstring) : Prop :=
  (10%N ∉ l) ∧ last l ≠ Some 13%N.

(** ** Well-formed states *)

(** The state invariant of the trainer of [main.tsx]: the index is a
    position of the list, and the statuses hold an entry for each word and
    for nothing else. *)
Definition well_formed (words : list string) (st : Trainer.State) : Prop :=
  0 ≤ Trainer.index st < len words
  ∧ ∀ w, is_Some (Trainer.statuses st !! w) ↔ w ∈ words.

(** The index of the trainer of [App.tsx] is a position of its list. *)
Definition on_a_word (c : Cards.State) : Prop :=
  0 ≤ Cards.index c < len (Cards.words c).

(** The lines of a word file: the words, a line feed between two of them. *)
Fixpoint unlines (ws : list Cards.jsstring) : Cards.jsstring :=
  match ws with
  | [] => []
  | [w] => w
  | w :: ws' => (w ++ 10%N :: unlines ws')%list
  end.

(** The same with a carriage return and a line feed between two words. *)
Fixpoint unlines_crlf (ws : list Cards.jsstring) : Cards.jsstring :=
  match ws with
  | [] => []
  | [w] => w
  | w :: ws' => (w ++ 13%N :: 10%N :: unlines_crlf ws')%list
  end.

(** A word as a line holds it: not empty, no line feed inside, no white
    space at either end. *)
Definition clean_word (w : Cards.jsstring) : Prop :=
  (10%N ∉ w)
  ∧ (∃ c, head w = Some c ∧ Cards.is_space c = false)
  ∧ (∃ c, last w = Some c ∧ Cards.is_space c = false).

(** * Proofs *)

(** ** Arrays *)

Section ArrayFacts.
Context {A : Type} (p : A → bool).

Lemma findIndex_range (l : list A) : -1 ≤ findIndex p l < len l.
Proof.
  unfold len. induction l as [|x l IH]; simpl; [lia|].
  destruct (p x); [lia|].
  destruct (Z.eqb_spec (findIndex p l) (-1)); lia.
Qed.

Lemma findIndex_absent (l : list A) :
  findIndex p l = -1 ↔ Forall (λ x, p x = false) l.
Proof.
  induction l as [|x l IH]; simpl.
  - split; [constructor | done].
  - destruct (p x) eqn:Hx.
    + split; [lia|]. intros H. inversion H. congruence.
    + pose proof (findIndex_range l) as Hrange.
      destruct (Z.eqb_spec (findIndex p l) (-1)) as [E|E].
      * split; [|done]. intros _. constructor; [done|]. by apply IH.
      * split; [lia|]. intros H. inversion H. subst. tauto.
Qed.

Lemma findIndex_first (l : list A) (r : Z) :
  findIndex p l = r → 0 ≤ r →
  (∃ x, at_index l r = Some x ∧ p x = true) ∧
  (∀ j x, 0 ≤ j < r → at_index l j = Some x → p x = false).
Proof.
  unfold at_index. revert r. induction l as [|x l IH]; simpl; intros r Hr Hpos; [lia|].
  destruct (p x) eqn:Hx.
  - subst r. split; [exists x; done | intros; lia].
  - pose proof (findIndex_range l) as Hrange.
    destruct (Z.eqb_spec (findIndex p l) (-1)) as [E|E]; [lia|].
    destruct (IH (findIndex p l) eq_refl ltac:(lia)) as [(y & Hy & Hpy) Hbefore].
    destruct (Z.leb_spec 0 (findIndex p l)); [|lia].
    subst r. split.
    + exists y. destruct (Z.leb_spec 0 (findIndex p l + 1)); [|lia].
      replace (Z.to_nat (findIndex p l + 1)) with (S (Z.to_nat (findIndex p l))) by lia.
      done.
    + intros j z Hj. destruct (Z.leb_spec 0 j); [|lia].
      destruct (Z.to_nat j) as [|k] eqn:Hk; simpl.
      * congruence.
      * intros Hz. apply (Hbefore (Z.of_nat k) z); [lia|].
        destruct (Z.leb_spec 0 (Z.of_nat k)); [|lia]. by rewrite Nat2Z.id.
Qed.
End ArrayFacts.

Lemma at_index_range {A} (l : list A) (i : Z) (x : A) :
  at_index l i = Some x → 0 ≤ i < len l.
Proof.
  unfold at_index, len. destruct (Z.leb_spec 0 i) as [Hi|Hi]; [|done].
  intros Hx%lookup_lt_Some. lia.
Qed.

Lemma at_index_elem {A} (l : list A) (i : Z) (x : A) :
  at_index l i = Some x → x ∈ l.
Proof.
  unfold at_index. destruct (0 <=? i); [|done]. apply list_elem_of_lookup_2.
Qed.

Lemma at_index_is_Some {A} (l : list A) (i : Z) :
  0 ≤ i < len l → is_Some (at_index l i).
Proof.
  unfold at_index, len. intros Hi. destruct (Z.leb_spec 0 i); [|lia].
  apply lookup_lt_is_Some. lia.
Qed.

(** ** The trainer of [main.tsx] *)

Section TrainerFacts.
Import Trainer.
Variable words : list string.

Lemma remaining_word_spec (sts : gmap string Status) (j : Z) :
  unset_or_skipped words sts j ↔
  ∃ w, at_index words j = Some w ∧ remaining_word sts w = true.
Proof.
  unfold unset_or_skipped, remaining_word.
  split; intros (w & Hw & H); exists w; split; try done.
  - destruct H as [-> | ->]; done.
  - destruct (sts !! w) as [[[]|]|]; auto; done.
Qed.

(** [findIndex] over the words returns the first remaining position. *)
Lemma findIndex_first_remaining (sts : gmap string Status) (r : Z) :
  findIndex (remaining_word sts) words = r → 0 ≤ r →
  first_remaining words sts r.
Proof.
  intros H Hr. destruct (findIndex_first _ _ _ H Hr) as [(w & Hw & Hp) Hbefore].
  split.
  - apply remaining_word_spec. eauto.
  - intros j Hj (w' & Hw' & Hp')%remaining_word_spec.
    specialize (Hbefore j w' Hj Hw'). congruence.
Qed.

Lemma findIndex_no_remaining (sts : gmap string Status) :
  findIndex (remaining_word sts) words = -1 ↔ ∀ j, ¬ unset_or_skipped words sts j.
Proof.
  rewrite findIndex_absent, Forall_forall. split.
  - intros H j (w & Hw & Hp)%remaining_word_spec.
    specialize (H w (at_index_elem _ _ _ Hw)). congruence.
  - intros H w Hw. destruct (remaining_word sts w) eqn:E; [|done].
    apply list_elem_of_lookup in Hw as [i Hi].
    exfalso. apply (H (Z.of_nat i)). apply remaining_word_spec.
    exists w. split; [|done]. unfold at_index.
    destruct (Z.leb_spec 0 (Z.of_nat i)); [|lia]. by rewrite Nat2Z.id.
Qed.

Lemma first_remaining_unique (sts : gmap string Status) (r r' : Z) :
  first_remaining words sts r → first_remaining words sts r' → r = r'.
Proof.
  intros [Hr Hmin] [Hr' Hmin'].
  assert (0 ≤ r) by (destruct Hr as (? & ?%at_index_range & _); lia).
  assert (0 ≤ r') by (destruct Hr' as (? & ?%at_index_range & _); lia).
  destruct (Z.lt_trichotomy r r') as [?|[?|?]]; [|done|].
  - exfalso. apply (Hmin' r); [lia | done].
  - exfalso. apply (Hmin r'); [lia | done].
Qed.

(** What [nextIndex] returns, case by case. *)
Lemma nextIndex_inner (st : State) (from : Z) :
  from < len words - 1 → nextIndex words st from = from + 1.
Proof. unfold nextIndex. intros H. destruct (Z.ltb_spec from (len words - 1)); [done | lia]. Qed.

Lemma nextIndex_last_found (st : State) (from r : Z) :
  len words - 1 ≤ from → first_remaining words (statuses st) r →
  nextIndex words st from = r.
Proof.
  unfold nextIndex. intros H Hr. destruct (Z.ltb_spec from (len words - 1)); [lia|].
  pose proof (findIndex_range (remaining_word (statuses st)) words) as Hrange.
  destruct (Z.eqb_spec (findIndex (remaining_word (statuses st)) words) (-1)) as [E|E].
  - apply findIndex_no_remaining with (j := r) in E. destruct Hr. done.
  - cbn zeta. eapply first_remaining_unique; [|done].
    apply findIndex_first_remaining; [done | lia].
Qed.

Lemma nextIndex_last_none (st : State) (from : Z) :
  len words - 1 ≤ from → (∀ j, ¬ unset_or_skipped words (statuses st) j) →
  nextIndex words st from = from.
Proof.
  unfold nextIndex. intros H Hnone. destruct (Z.ltb_spec from (len words - 1)); [lia|].
  apply findIndex_no_remaining in Hnone. rewrite Hnone. done.
Qed.

End TrainerFacts.

(** ** Cyclic distance *)

Lemma steps_after (n i j : Z) :
  0 ≤ i < j → j < n → (j - i - 1) mod n = j - i - 1.
Proof. intros. apply Z.mod_small. lia. Qed.

Lemma steps_before (n i j : Z) :
  0 ≤ j ≤ i → i < n → (j - i - 1) mod n = j - i - 1 + n.
Proof.
  intros. rewrite <- (Z_mod_plus_full (j - i - 1) 1 n).
  rewrite Z.mul_1_l. apply Z.mod_small. lia.
Qed.

(** ** The trainer of [App.tsx] *)

Section Scan.
Variable p : Z → bool.

(** A [for] loop over [a .. a+k-1] that returns at the first hit. *)
Lemma find_seqZ_Some (a k r : Z) :
  List.find p (seqZ a k) = Some r →
  a ≤ r < a + k ∧ p r = true ∧ ∀ j, a ≤ j < r → p j = false.
Proof.
  remember (Z.to_nat k) as m eqn:Hm. revert a k Hm.
  induction m as [|m IH]; intros a k Hm.
  - rewrite seqZ_nil by lia. done.
  - rewrite seqZ_cons by lia. simpl. destruct (p a) eqn:Ha.
    + intros [= <-]. repeat split; [lia | lia | done | intros; lia].
    + intros H. destruct (IH (Z.succ a) (Z.pred k) ltac:(lia) H) as (Hr & Hp & Hmin).
      repeat split; [lia | lia | done |].
      intros j Hj. destruct (decide (j = a)) as [->|]; [done|]. apply Hmin. lia.
Qed.

Lemma find_seqZ_None (a k : Z) :
  List.find p (seqZ a k) = None → ∀ j, a ≤ j < a + k → p j = false.
Proof.
  remember (Z.to_nat k) as m eqn:Hm. revert a k Hm.
  induction m as [|m IH]; intros a k Hm.
  - intros _ j Hj. lia.
  - rewrite seqZ_cons by lia. simpl. destruct (p a) eqn:Ha; [done|].
    intros H j Hj. destruct (decide (j = a)) as [->|]; [done|].
    apply (IH (Z.succ a) (Z.pred k)); [lia | done | lia].
Qed.
End Scan.

Section CardsFacts.
Import Cards.

Lemma not_correct_unfinished (sts : gmap Z Status) (j : Z) :
  not_correct sts j = true ↔ unfinished sts j.
Proof.
  unfold not_correct, unfinished. rewrite negb_true_iff, bool_decide_eq_false. done.
Qed.

Lemma not_correct_finished (sts : gmap Z Status) (j : Z) :
  not_correct sts j = false ↔ ¬ unfinished sts j.
Proof. rewrite <- not_correct_unfinished. destruct (not_correct sts j); naive_solver. Qed.

(** The search returns the nearest unfinished position after [start],
    the position [start] itself coming last. *)
Lemma nextUnfinished_nearest (c : State) (start r : Z) :
  0 ≤ start < len (words c) →
  nextUnfinished start c = Some r →
  nearest_after (len (words c)) (unfinished (statuses c)) start r.
Proof.
  intros Hs. unfold nextUnfinished, nearest_after.
  destruct (List.find _ (seqZ (start + 1) _)) as [i|] eqn:Hfst.
  - intros [= ->]. apply find_seqZ_Some in Hfst as (Hr & Hp & Hmin).
    split; [lia|]. split; [by apply not_correct_unfinished|].
    intros j Hj HPj. rewrite (steps_after _ start r) by lia.
    destruct (Z.le_gt_cases j start).
    + rewrite steps_before by lia. lia.
    + rewrite steps_after by lia.
      destruct (Z.lt_ge_cases j r); [|lia].
      apply not_correct_unfinished in HPj. rewrite Hmin in HPj by lia. done.
  - intros Hsnd. pose proof (find_seqZ_None _ _ _ Hfst) as Hnone.
    apply find_seqZ_Some in Hsnd as (Hr & Hp & Hmin).
    split; [lia|]. split; [by apply not_correct_unfinished|].
    intros j Hj HPj. rewrite (steps_before _ start r) by lia.
    apply not_correct_unfinished in HPj.
    destruct (Z.le_gt_cases j start).
    + rewrite steps_before by lia.
      destruct (Z.lt_ge_cases j r); [|lia]. rewrite Hmin in HPj by lia. done.
    + rewrite Hnone in HPj by lia. done.
Qed.

Lemma nextUnfinished_none (c : State) (start : Z) :
  0 ≤ start < len (words c) →
  nextUnfinished start c = None →
  ∀ j, 0 ≤ j < len (words c) → ¬ unfinished (statuses c) j.
Proof.
  intros Hs. unfold nextUnfinished.
  destruct (List.find _ (seqZ (start + 1) _)) eqn:Hfst; [done|].
  intros Hsnd j Hj. apply not_correct_finished.
  destruct (Z.le_gt_cases j start).
  - apply (find_seqZ_None _ _ _ Hsnd). lia.
  - apply (find_seqZ_None _ _ _ Hfst). lia.
Qed.

(** The first loop wins: a hit strictly after [start] is preferred to
    any wrapped one. *)
Lemma nextUnfinished_prefers_later (c : State) (start j : Z) :
  start < j < len (words c) → unfinished (statuses c) j →
  ∃ r, nextUnfinished start c = Some r ∧ start < r ≤ j.
Proof.
  intros Hj HPj. unfold nextUnfinished.
  destruct (List.find _ (seqZ (start + 1) _)) as [i|] eqn:Hfst.
  - exists i. split; [done|]. apply find_seqZ_Some in Hfst as (Hr & Hp & Hmin).
    split; [lia|]. destruct (Z.le_gt_cases i j); [done|].
    apply not_correct_unfinished in HPj. rewrite Hmin in HPj by lia. done.
  - apply not_correct_unfinished in HPj.
    rewrite (find_seqZ_None _ _ _ Hfst) in HPj by lia. done.
Qed.

Lemma nextUnfinished_is_Some (c : State) (start j : Z) :
  0 ≤ start < len (words c) → 0 ≤ j < len (words c) → unfinished (statuses c) j →
  is_Some (nextUnfinished start c).
Proof.
  intros Hs Hj HPj. destruct (nextUnfinished start c) eqn:E; [done|].
  exfalso. by apply (nextUnfinished_none c start Hs E j Hj).
Qed.

(** The nearest position is unique. *)
Lemma nearest_after_unique (n : Z) (P : Z → Prop) (i r r' : Z) :
  0 ≤ i < n → nearest_after n P i r → nearest_after n P i r' → r = r'.
Proof.
  intros Hi (Hr & HP & Hmin) (Hr' & HP' & Hmin').
  specialize (Hmin r' Hr' HP'). specialize (Hmin' r Hr HP).
  assert (E : (r - i - 1) mod n = (r' - i - 1) mod n) by (by apply Z.le_antisymm).
  destruct (Z.le_gt_cases r i), (Z.le_gt_cases r' i).
  - rewrite (steps_before n i r), (steps_before n i r') in E by lia. lia.
  - rewrite (steps_before n i r), (steps_after n i r') in E by lia. lia.
  - rewrite (steps_after n i r), (steps_before n i r') in E by lia. lia.
  - rewrite (steps_after n i r), (steps_after n i r') in E by lia. lia.
Qed.

End CardsFacts.

Section TrainerSteps.
Import Trainer.
Variable words : list string.

(** At the last position [nextIndex] either finds the first remaining
    word of the list or, finding none, returns where it started. *)
Lemma nextIndex_last (st : State) (from : Z) :
  len words - 1 ≤ from →
  (nextIndex words st from = from ∧ ∀ j, ¬ unset_or_skipped words (statuses st) j) ∨
  first_remaining words (statuses st) (nextIndex words st from).
Proof.
  intros Hfrom. unfold nextIndex. destruct (Z.ltb_spec from (len words - 1)); [lia|].
  pose proof (findIndex_range (remaining_word (statuses st)) words) as Hrange.
  cbn zeta. destruct (Z.eqb_spec (findIndex (remaining_word (statuses st)) words) (-1)) as [E|E].
  - left. split; [done|]. by apply findIndex_no_remaining.
  - right. apply findIndex_first_remaining; [done | lia].
Qed.

Lemma nextIndex_last_alone (st : State) (from : Z) :
  len words - 1 ≤ from →
  (∀ j, j ≠ from → ¬ unset_or_skipped words (statuses st) j) →
  nextIndex words st from = from.
Proof.
  intros Hfrom Halone. destruct (nextIndex_last st from Hfrom) as [[E _]|[Hr _]]; [done|].
  destruct (decide (nextIndex words st from = from)) as [|Hne]; [done|].
  destruct (Halone _ Hne Hr).
Qed.

Lemma next_inner (st : State) :
  index st < len words - 1 → next words st = setIndex (λ _, index st + 1) st.
Proof.
  intros H. unfold next. rewrite nextIndex_inner by done.
  destruct (Z.eqb_spec (index st + 1) (index st)); [lia | done].
Qed.

Lemma next_last_found (st : State) (r : Z) :
  len words - 1 ≤ index st → first_remaining words (statuses st) r → r ≠ index st →
  next words st = setIndex (λ _, r) st.
Proof.
  intros H Hr Hne. unfold next. rewrite (nextIndex_last_found words st _ r) by done.
  destruct (Z.eqb_spec r (index st)); done.
Qed.

Lemma next_last_alone (st : State) :
  len words - 1 ≤ index st →
  (∀ j, j ≠ index st → ¬ unset_or_skipped words (statuses st) j) →
  next words st = setView summary st.
Proof.
  intros H Halone. unfold next. rewrite nextIndex_last_alone by done.
  by rewrite Z.eqb_refl.
Qed.

Lemma handleMark_statuses (m : Mark) (st : State) :
  statuses (handleMark words m st) = <[word_key words (index st) := Some m]> (statuses st).
Proof. unfold handleMark. by destruct (_ =? _). Qed.

Lemma handleMark_inner (m : Mark) (st : State) :
  index st < len words - 1 →
  index (handleMark words m st) = index st + 1 ∧ view (handleMark words m st) = view st.
Proof.
  intros H. unfold handleMark. rewrite nextIndex_inner by done.
  destruct (Z.eqb_spec (index st + 1) (index st)); [lia | done].
Qed.

Lemma handleMark_last_found (m : Mark) (st : State) (r : Z) :
  len words - 1 ≤ index st → first_remaining words (statuses st) r → r ≠ index st →
  index (handleMark words m st) = r ∧ view (handleMark words m st) = view st.
Proof.
  intros H Hr Hne. unfold handleMark. rewrite (nextIndex_last_found words st _ r) by done.
  destruct (Z.eqb_spec r (index st)); done.
Qed.

Lemma handleMark_last_alone (m : Mark) (st : State) :
  len words - 1 ≤ index st →
  (∀ j, j ≠ index st → ¬ unset_or_skipped words (statuses st) j) →
  index (handleMark words m st) = index st ∧ view (handleMark words m st) = summary.
Proof.
  intros H Halone. unfold handleMark. rewrite nextIndex_last_alone by done.
  by rewrite Z.eqb_refl.
Qed.

(** *** [groups] and [allDone] *)

Lemma groups_notAnswered (st : State) :
  notAnswered (groups words st) = List.filter (λ w, negb (answered st w)) words.
Proof.
  unfold groups.
  enough (G : ∀ l g, notAnswered (foldl (λ g w,
    match statuses st !! w with
    | Some (Some correct) => mkGroups (g_correct g ++ [w]) (g_incorrect g) (notAnswered g)
    | Some (Some incorrect) => mkGroups (g_correct g) (g_incorrect g ++ [w]) (notAnswered g)
    | _ => mkGroups (g_correct g) (g_incorrect g) (notAnswered g ++ [w])
    end) g l) = (notAnswered g ++ List.filter (λ w, negb (answered st w)) l)%list) by apply G.
  induction l as [|w l IH]; intros g; simpl; [by rewrite app_nil_r|].
  rewrite IH. unfold answered.
  destruct (statuses st !! w) as [[[]|]|]; simpl; try done; by rewrite <- app_assoc.
Qed.

Lemma allDone_notAnswered (st : State) :
  allDone words st = true ↔ notAnswered (groups words st) = [].
Proof.
  unfold allDone, len. rewrite Z.eqb_eq.
  destruct (notAnswered (groups words st)); simpl; split; (done || lia).
Qed.

Lemma allDone_answered (st : State) :
  allDone words st = true ↔ Forall (λ w, answered st w = true) words.
Proof.
  rewrite allDone_notAnswered, groups_notAnswered.
  induction words as [|w l IH]; simpl.
  - split; [constructor | done].
  - destruct (answered st w) eqn:E; simpl.
    + rewrite IH. split; [by constructor | by inversion 1].
    + split; [done | inversion 1; congruence].
Qed.

Lemma allDone_no_remaining (st : State) :
  allDone words st = true → ∀ j, ¬ unset_or_skipped words (statuses st) j.
Proof.
  rewrite allDone_answered, Forall_forall. intros H j (w & Hw & Hs).
  specialize (H w (at_index_elem _ _ _ Hw)). unfold answered in H.
  destruct Hs as [Hs|Hs]; rewrite Hs in H; done.
Qed.

End TrainerSteps.

Section CardsSteps.
Import Cards.

(** When the search settles on the start itself, no other position is
    unfinished. *)
Lemma nearest_after_self (n : Z) (P : Z → Prop) (i j : Z) :
  0 ≤ i < n → nearest_after n P i i → 0 ≤ j < n → P j → j = i.
Proof.
  intros Hi (_ & _ & Hmin) Hj HPj. specialize (Hmin j Hj HPj).
  rewrite (steps_before n i i) in Hmin by lia.
  destruct (Z.lt_trichotomy j i) as [?|[?|?]]; [|done|].
  - rewrite steps_before in Hmin by lia. lia.
  - rewrite steps_after in Hmin by lia. lia.
Qed.

Lemma updateStatus_statuses (s : Status) (c : State) :
  statuses (updateStatus s c) = <[index c := s]> (statuses c).
Proof.
  unfold updateStatus, goToNextUnfinished.
  destruct (bool_decide _); [|done]. by destruct (nextUnfinished _ _).
Qed.

Lemma updateStatus_correct_index (c : State) :
  index (updateStatus correct c) = default (index c) (nextUnfinished (index c) c).
Proof.
  unfold updateStatus, goToNextUnfinished. simpl.
  by destruct (nextUnfinished _ _).
Qed.

Lemma unfinished_after_mark (c : State) (j : Z) :
  unfinished (<[index c := correct]> (statuses c)) j ↔
  j ≠ index c ∧ unfinished (statuses c) j.
Proof.
  unfold unfinished. destruct (decide (j = index c)) as [->|Hne].
  - rewrite lookup_insert_eq. intuition congruence.
  - rewrite lookup_insert_ne by done. tauto.
Qed.

Lemma updateStatus_correct_nearest (c : State) :
  0 ≤ index c < len (words c) →
  (∃ j, 0 ≤ j < len (words c) ∧ unfinished (statuses (updateStatus correct c)) j) →
  nearest_after (len (words c)) (unfinished (statuses (updateStatus correct c)))
    (index c) (index (updateStatus correct c)).
Proof.
  intros Hi (j & Hj & HPj). rewrite updateStatus_statuses in *.
  rewrite updateStatus_correct_index.
  apply unfinished_after_mark in HPj as [Hne HPj].
  destruct (nextUnfinished_is_Some c (index c) j Hi Hj HPj) as [r Hr].
  rewrite Hr. simpl.
  pose proof (nextUnfinished_nearest c (index c) r Hi Hr) as Hnear.
  destruct (decide (r = index c)) as [->|Hr_ne].
  { destruct Hne. by apply (nearest_after_self _ _ _ _ Hi Hnear Hj). }
  destruct Hnear as (Hrange & HPr & Hmin).
  split; [done|]. split; [by apply unfinished_after_mark|].
  intros k Hk [_ HPk]%unfinished_after_mark. by apply Hmin.
Qed.

Lemma updateStatus_correct_stays (c : State) :
  0 ≤ index c < len (words c) →
  (∀ j, 0 ≤ j < len (words c) → ¬ unfinished (statuses (updateStatus correct c)) j) →
  index (updateStatus correct c) = index c.
Proof.
  intros Hi Hnone. rewrite updateStatus_correct_index.
  destruct (nextUnfinished (index c) c) as [r|] eqn:Hr; [|done]. simpl.
  destruct (nextUnfinished_nearest c (index c) r Hi Hr) as (Hrange & HPr & _).
  destruct (decide (r = index c)) as [|Hne]; [done|].
  destruct (Hnone r Hrange). rewrite updateStatus_statuses.
  by apply unfinished_after_mark.
Qed.

(** Only a correct mark advances: incorrect and skipped leave the index. *)
Lemma updateStatus_other_index (s : Status) (c : State) :
  s ≠ correct → index (updateStatus s c) = index c.
Proof.
  intros Hs. unfold updateStatus. by rewrite bool_decide_eq_false_2.
Qed.

Lemma goNext_nearest (c : State) :
  0 ≤ index c < len (words c) →
  (∃ j, 0 ≤ j < len (words c) ∧ unfinished (statuses c) j) →
  nearest_after (len (words c)) (unfinished (statuses c)) (index c) (index (goNext c)).
Proof.
  intros Hi (j & Hj & HPj). unfold goNext, goToNextUnfinished.
  destruct (nextUnfinished_is_Some c (index c) j Hi Hj HPj) as [r Hr].
  rewrite Hr. simpl. by apply nextUnfinished_nearest.
Qed.

Lemma goNext_prefers_later (c : State) (j : Z) :
  index c < j < len (words c) → unfinished (statuses c) j →
  index c < index (goNext c) ≤ j.
Proof.
  intros Hj HPj. unfold goNext, goToNextUnfinished.
  destruct (nextUnfinished_prefers_later c (index c) j Hj HPj) as (r & -> & Hr). done.
Qed.

Lemma goNext_complete (c : State) :
  0 ≤ index c < len (words c) →
  (∀ j, 0 ≤ j < len (words c) → ¬ unfinished (statuses c) j) →
  goNext c = c.
Proof.
  intros Hi Hnone. unfold goNext, goToNextUnfinished.
  destruct (nextUnfinished (index c) c) as [r|] eqn:Hr; [|done].
  destruct (nextUnfinished_nearest c (index c) r Hi Hr) as (Hrange & HPr & _).
  destruct (Hnone r Hrange HPr).
Qed.

End CardsSteps.

(** ** Marking a word *)

(** C1, as the code has it.  After [mark] the status recorded for the
    current word is the mark.  In [main.tsx] the index then steps to the
    position right after the word, whatever the status of the word there;
    only from the last position does it go to the first word of the list
    that was unset or skipped, and it stays, with the summary shown, when
    there is no such word elsewhere.  In [App.tsx], marking correct moves
    the index to the nearest word after the marked one, wrapping, whose
    status is not correct, and leaves it when every word is correct. *)
Theorem mark_records_then_steps (words : list string) (m : Trainer.Mark)
    (st : Trainer.State) (w : string) (c : Cards.State) :
  at_index words (Trainer.index st) = Some w →
  0 ≤ Cards.index c < len (Cards.words c) →
  (Trainer.statuses (Trainer.handleMark words m st) !! w = Some (Some m)
   ∧ Trainer.statuses (Trainer.handleMark words m st) = <[w := Some m]> (Trainer.statuses st)
   ∧ (Trainer.index st < len words - 1 →
        Trainer.index (Trainer.handleMark words m st) = Trainer.index st + 1
        ∧ Trainer.view (Trainer.handleMark words m st) = Trainer.view st)
   ∧ (Trainer.index st = len words - 1 →
        (∀ r, first_remaining words (Trainer.statuses st) r → r ≠ Trainer.index st →
           Trainer.index (Trainer.handleMark words m st) = r
           ∧ Trainer.view (Trainer.handleMark words m st) = Trainer.view st)
        ∧ ((∀ j, j ≠ Trainer.index st → ¬ unset_or_skipped words (Trainer.statuses st) j) →
           Trainer.index (Trainer.handleMark words m st) = Trainer.index st
           ∧ Trainer.view (Trainer.handleMark words m st) = Trainer.summary)))
  ∧
  (Cards.statuses (Cards.updateStatus Cards.correct c) !! Cards.index c = Some Cards.correct
   ∧ Cards.statuses (Cards.updateStatus Cards.correct c)
     = <[Cards.index c := Cards.correct]> (Cards.statuses c)
   ∧ ((∃ j, 0 ≤ j < len (Cards.words c)
            ∧ unfinished (Cards.statuses (Cards.updateStatus Cards.correct c)) j) →
      nearest_after (len (Cards.words c))
        (unfinished (Cards.statuses (Cards.updateStatus Cards.correct c)))
        (Cards.index c) (Cards.index (Cards.updateStatus Cards.correct c)))
   ∧ ((∀ j, 0 ≤ j < len (Cards.words c)
            → ¬ unfinished (Cards.statuses (Cards.updateStatus Cards.correct c)) j) →
      Cards.index (Cards.updateStatus Cards.correct c) = Cards.index c)).
Proof.
  intros Hw Hc. split.
  - assert (Hkey : Trainer.word_key words (Trainer.index st) = w)
      by (unfold Trainer.word_key; by rewrite Hw).
    rewrite handleMark_statuses, Hkey, lookup_insert_eq.
    split; [done|]. split; [done|]. split.
    + apply handleMark_inner.
    + intros Hlast. split.
      * intros r Hr Hne. apply handleMark_last_found; [lia | done | done].
      * intros Halone. apply handleMark_last_alone; [lia | done].
  - rewrite updateStatus_statuses, lookup_insert_eq.
    split; [done|]. split; [done|].
    rewrite <- updateStatus_statuses. split.
    + by apply updateStatus_correct_nearest.
    + by apply updateStatus_correct_stays.
Qed.

(** The word list of the scenario of the specification. *)
Lemma mark_records_then_steps_witness :
  at_index ["cat"; "dog"; "bird"] (Trainer.index (Trainer.initial ["cat"; "dog"; "bird"])) = Some "cat"
  ∧ 0 ≤ Cards.index (Cards.mkState [[99%N]; [100%N]] ∅ 0) < len (Cards.words (Cards.mkState [[99%N]; [100%N]] ∅ 0))
  ∧ Trainer.statuses (Trainer.handleMark ["cat"; "dog"; "bird"] Trainer.correct
                        (Trainer.initial ["cat"; "dog"; "bird"])) !! "cat"
    = Some (Some Trainer.correct).
Proof.
  split; [reflexivity|]. split; [vm_compute; split; [discriminate | reflexivity]|].
  apply (mark_records_then_steps ["cat"; "dog"; "bird"] Trainer.correct
           (Trainer.initial ["cat"; "dog"; "bird"]) "cat"
           (Cards.mkState [[99%N]; [100%N]] ∅ 0)).
  - reflexivity.
  - vm_compute. split; [discriminate | reflexivity].
Defined.

(** C1, as stated, fails on [main.tsx]: with "write" already correct and
    the index on "knight", marking "knight" correct puts the index on
    "write", a finished word, although "catch" is still unset. *)
Lemma mark_lands_on_finished_word :
  ¬ mark_lands_on_nearest Trainer.WORDS
      (Trainer.mkState (<["write" := Some Trainer.correct]> (Trainer.cleared Trainer.WORDS))
         0 Trainer.trainer).
Proof.
  intros H. destruct (H "knight" eq_refl) as [_ Hnear].
  destruct Hnear as (_ & (w & Hw & Hs) & _).
  - exists 2, "catch". split; [reflexivity|]. left. vm_compute. reflexivity.
  - vm_compute in Hw. injection Hw as <-.
    destruct Hs as [Hs|Hs]; vm_compute in Hs; discriminate.
Qed.

(** ** The search for the next unfinished word *)

(** C2, as the code has it.  In [App.tsx] (the stricter variant) [next]
    scans forward from the current position, wrapping to the start, for
    the first word that is not correct, a hit strictly after the current
    index winning over any earlier one; with every word correct the state
    is left as it is.  In [main.tsx], [next] steps to the following
    position without looking at statuses; only at the last position does
    it look for the first unset or skipped word of the list, and it opens
    the summary when no other word is unset or skipped. *)
Theorem next_search_policy (words : list string) (st : Trainer.State) (c : Cards.State) :
  0 ≤ Cards.index c < len (Cards.words c) →
  ((∃ j, 0 ≤ j < len (Cards.words c) ∧ unfinished (Cards.statuses c) j) →
     nearest_after (len (Cards.words c)) (unfinished (Cards.statuses c))
       (Cards.index c) (Cards.index (Cards.goNext c)))
  ∧ (∀ j, Cards.index c < j < len (Cards.words c) → unfinished (Cards.statuses c) j →
       Cards.index c < Cards.index (Cards.goNext c) ≤ j)
  ∧ ((∀ j, 0 ≤ j < len (Cards.words c) → ¬ unfinished (Cards.statuses c) j) →
       Cards.goNext c = c)
  ∧ (Trainer.index st < len words - 1 →
       Trainer.next words st = Trainer.setIndex (λ _, Trainer.index st + 1) st)
  ∧ (len words - 1 ≤ Trainer.index st →
       (∀ r, first_remaining words (Trainer.statuses st) r → r ≠ Trainer.index st →
          Trainer.next words st = Trainer.setIndex (λ _, r) st)
       ∧ ((∀ j, j ≠ Trainer.index st → ¬ unset_or_skipped words (Trainer.statuses st) j) →
          Trainer.next words st = Trainer.setView Trainer.summary st)).
Proof.
  intros Hc. split; [by apply goNext_nearest|].
  split; [apply goNext_prefers_later|].
  split; [by apply goNext_complete|].
  split; [apply next_inner|].
  intros Hlast. split.
  - intros r. by apply next_last_found.
  - by apply next_last_alone.
Qed.

Lemma next_search_policy_witness :
  0 ≤ Cards.index (Cards.mkState [[97%N]; [98%N]; [99%N]] {[1 := Cards.correct]} 0)
    < len (Cards.words (Cards.mkState [[97%N]; [98%N]; [99%N]] {[1 := Cards.correct]} 0))
  ∧ 0 < Cards.index (Cards.goNext
            (Cards.mkState [[97%N]; [98%N]; [99%N]] {[1 := Cards.correct]} 0)) ≤ 2.
Proof.
  assert (Hc : 0 ≤ Cards.index (Cards.mkState [[97%N]; [98%N]; [99%N]] {[1 := Cards.correct]} 0)
               < len (Cards.words (Cards.mkState [[97%N]; [98%N]; [99%N]] {[1 := Cards.correct]} 0)))
    by (vm_compute; split; [discriminate | reflexivity]).
  split; [exact Hc|].
  destruct (next_search_policy Trainer.WORDS (Trainer.initial Trainer.WORDS)
    (Cards.mkState [[97%N]; [98%N]; [99%N]] {[1 := Cards.correct]} 0) Hc) as (_ & Hlater & _).
  apply (Hlater 2).
  - vm_compute. split; reflexivity.
  - vm_compute. discriminate.
Defined.

(** C2, as stated, fails on [main.tsx]: with "write" marked incorrect and
    the index on "knight", [next] moves to "write", which is neither unset
    nor skipped, and not to "catch". *)
Lemma next_lands_on_finished_word :
  ¬ next_lands_on_nearest Trainer.WORDS
      (Trainer.mkState (<["write" := Some Trainer.incorrect]> (Trainer.cleared Trainer.WORDS))
         0 Trainer.trainer).
Proof.
  intros H. destruct H as (_ & (w & Hw & Hs) & _).
  - exists 2, "catch". split; [reflexivity|]. left. vm_compute. reflexivity.
  - vm_compute in Hw. injection Hw as <-.
    destruct Hs as [Hs|Hs]; vm_compute in Hs; discriminate.
Qed.

(** ** Completion *)

(** C3, as the code has it.  When no word is unset or skipped ([allDone],
    that is, [groups().notAnswered] is empty) and the index is on the last
    word, [next] and [mark] leave the index where it is and open the
    summary.  At an earlier position they move the index one step on and
    leave the view as it is. *)
Theorem complete_session_steps (words : list string) (st : Trainer.State) :
  Trainer.allDone words st = true →
  Trainer.notAnswered (Trainer.groups words st) = []
  ∧ Forall (λ w, answered st w = true) words
  ∧ (len words - 1 ≤ Trainer.index st →
       Trainer.next words st = Trainer.setView Trainer.summary st
       ∧ ∀ m, Trainer.index (Trainer.handleMark words m st) = Trainer.index st
              ∧ Trainer.view (Trainer.handleMark words m st) = Trainer.summary)
  ∧ (Trainer.index st < len words - 1 →
       Trainer.next words st = Trainer.setIndex (λ _, Trainer.index st + 1) st
       ∧ ∀ m, Trainer.index (Trainer.handleMark words m st) = Trainer.index st + 1
              ∧ Trainer.view (Trainer.handleMark words m st) = Trainer.view st).
Proof.
  intros Hdone. pose proof (allDone_no_remaining words st Hdone) as Hnone.
  split; [by apply allDone_notAnswered|].
  split; [by apply allDone_answered|].
  split.
  - intros Hlast. split.
    + apply next_last_alone; [done|]. intros j _. apply Hnone.
    + intros m. apply handleMark_last_alone; [done|]. intros j _. apply Hnone.
  - intros Hinner. split; [by apply next_inner|].
    intros m. by apply handleMark_inner.
Qed.

Lemma complete_session_steps_witness :
  Trainer.allDone Trainer.WORDS
    (Trainer.mkState (all_marked Trainer.WORDS Trainer.correct) 24 Trainer.trainer) = true
  ∧ Trainer.view (Trainer.next Trainer.WORDS
      (Trainer.mkState (all_marked Trainer.WORDS Trainer.correct) 24 Trainer.trainer))
    = Trainer.summary.
Proof.
  split; [vm_compute; reflexivity|].
  destruct (complete_session_steps Trainer.WORDS
    (Trainer.mkState (all_marked Trainer.WORDS Trainer.correct) 24 Trainer.trainer)
    ltac:(vm_compute; reflexivity)) as (_ & _ & Hlast & _).
  destruct (Hlast ltac:(vm_compute; discriminate)) as [-> _]. reflexivity.
Defined.

(** C3, as stated, fails on [main.tsx]: with every word correct and the
    index on the first word, [next] moves the index to the second word
    and the trainer view stays. *)
Lemma complete_session_still_steps :
  ¬ complete_stays_put Trainer.WORDS
      (Trainer.mkState (all_marked Trainer.WORDS Trainer.correct) 0 Trainer.trainer).
Proof.
  intros H. destruct (H ltac:(vm_compute; reflexivity)) as [Hnext _].
  apply (f_equal Trainer.index) in Hnext. vm_compute in Hnext. discriminate.
Qed.

(** ** Objects filled by a loop *)

Lemma lookup_foldl_insert {V} (f : string → V) (l : list string) (m : gmap string V) (k : string) :
  foldl (λ acc w, <[w := f w]> acc) m l !! k
  = if decide (k ∈ l) then Some (f k) else m !! k.
Proof.
  revert m. induction l as [|w l IH]; intros m; cbn [foldl].
  - destruct (decide (k ∈ [])) as [Hin|]; [|done]. by apply not_elem_of_nil in Hin.
  - rewrite IH.
    destruct (decide (k ∈ l)) as [Hin|Hout], (decide (k ∈ w :: l)) as [Hin'|Hout']; try done.
    + destruct Hout'. by right.
    + apply elem_of_cons in Hin' as [->|?]; [by rewrite lookup_insert_eq | done].
    + rewrite lookup_insert_ne; [done|]. intros ->. apply Hout'. by left.
Qed.

Lemma cleared_lookup (words : list string) (k : string) :
  Trainer.cleared words !! k = if decide (k ∈ words) then Some Trainer.null else None.
Proof. unfold Trainer.cleared. by rewrite (lookup_foldl_insert (λ _, Trainer.null)). Qed.

(** ** Reset *)

(** C4.  [reset] is idempotent: applied twice it yields the state it
    yields applied once, in which every word is unset and the index is 0.
    In [main.tsx] every word is mapped to [null]; in [App.tsx] the status
    object is emptied. *)
Theorem reset_idempotent (words : list string) (st : Trainer.State) (c : Cards.State) :
  Trainer.resetAll words (Trainer.resetAll words st) = Trainer.resetAll words st
  ∧ Trainer.index (Trainer.resetAll words st) = 0
  ∧ Forall (λ w, Trainer.statuses (Trainer.resetAll words st) !! w = Some Trainer.null) words
  ∧ Trainer.view (Trainer.resetAll words st) = Trainer.trainer
  ∧ Cards.reset (Cards.reset c) = Cards.reset c
  ∧ Cards.index (Cards.reset c) = 0
  ∧ Cards.statuses (Cards.reset c) = ∅.
Proof.
  repeat split; try reflexivity.
  apply Forall_forall. intros w Hw. simpl.
  rewrite cleared_lookup. by rewrite decide_True.
Qed.

(** ** Going back *)

(** C7.  The two [prev] handlers agree above position 0, where both move
    the index back by one, and part at position 0: [goPrev] of [App.tsx]
    wraps to the last index, [prev] of [main.tsx] stays at 0.  They
    differ there unless the list has exactly one word. *)
Theorem prev_policies_diverge (st : Trainer.State) (c : Cards.State) :
  Trainer.index st = Cards.index c →
  (0 < Cards.index c →
     Trainer.index (Trainer.prev st) = Cards.index c - 1
     ∧ Cards.index (Cards.goPrev c) = Cards.index c - 1)
  ∧ (Cards.index c = 0 →
     Trainer.index (Trainer.prev st) = 0
     ∧ Cards.index (Cards.goPrev c) = len (Cards.words c) - 1)
  ∧ (Cards.index c = 0 → len (Cards.words c) ≠ 1 →
     Trainer.index (Trainer.prev st) ≠ Cards.index (Cards.goPrev c)).
Proof.
  intros E. unfold Trainer.prev, Cards.goPrev. simpl. rewrite E.
  split; [|split].
  - intros H. destruct (Z.ltb_spec 0 (Cards.index c)); [done | lia].
  - intros ->. done.
  - intros -> Hlen. simpl. lia.
Qed.

Lemma prev_policies_diverge_witness :
  Trainer.index (Trainer.prev (Trainer.initial Trainer.WORDS)) = 0
  ∧ Cards.index (Cards.goPrev (Cards.mkState [[97%N]; [98%N]; [99%N]] ∅ 0)) = 2
  ∧ Trainer.index (Trainer.prev (Trainer.initial Trainer.WORDS))
    ≠ Cards.index (Cards.goPrev (Cards.mkState [[97%N]; [98%N]; [99%N]] ∅ 0)).
Proof.
  destruct (prev_policies_diverge (Trainer.initial Trainer.WORDS)
              (Cards.mkState [[97%N]; [98%N]; [99%N]] ∅ 0) eq_refl)
    as (_ & Hzero & Hdiff).
  destruct (Hzero eq_refl) as [H1 H2].
  split; [exact H1|]. split; [exact H2|].
  apply Hdiff; [reflexivity | vm_compute; discriminate].
Defined.

(** ** The scenario *)

(** C8, as the code has it.  With the words cat, dog, bird and the
    default state, on the handlers of [main.tsx]: marking cat correct
    moves the index to position 1 (dog); marking dog skipped moves it to
    position 2 (bird); marking bird correct leaves dog skipped, so the
    session is not complete and the not-answered group is [dog].  On the
    trainer of [App.tsx], which has neither groups nor a completion test,
    a mark other than correct records the status and leaves the index
    where it is: marking cat correct moves the index to position 1,
    marking dog skipped leaves it on dog, Next moves it to position 2,
    and marking bird correct there brings it back to dog, with cat and
    bird correct and dog skipped. *)
Theorem scenario_cat_dog_bird :
  Trainer.index scenario_0 = 0
  ∧ Forall (λ w, Trainer.statuses scenario_0 !! w = Some Trainer.null) scenario_words
  ∧ Trainer.statuses scenario_1 !! "cat" = Some (Some Trainer.correct)
  ∧ Trainer.index scenario_1 = 1
  ∧ at_index scenario_words (Trainer.index scenario_1) = Some "dog"
  ∧ Trainer.statuses scenario_2 !! "dog" = Some (Some Trainer.skipped)
  ∧ Trainer.index scenario_2 = 2
  ∧ at_index scenario_words (Trainer.index scenario_2) = Some "bird"
  ∧ Trainer.statuses scenario_3 !! "cat" = Some (Some Trainer.correct)
  ∧ Trainer.statuses scenario_3 !! "dog" = Some (Some Trainer.skipped)
  ∧ Trainer.statuses scenario_3 !! "bird" = Some (Some Trainer.correct)
  ∧ Trainer.allDone scenario_words scenario_3 = false
  ∧ Trainer.notAnswered (Trainer.groups scenario_words scenario_3) = ["dog"]
  ∧ Trainer.g_correct (Trainer.groups scenario_words scenario_3) = ["cat"; "bird"]
  ∧ Trainer.g_incorrect (Trainer.groups scenario_words scenario_3) = []
  ∧ Cards.statuses cards_1 !! 0 = Some Cards.correct
  ∧ Cards.index cards_1 = 1
  ∧ Cards.statuses cards_2 !! 1 = Some Cards.skipped
  ∧ Cards.index cards_2 = 1
  ∧ Cards.shownWord cards_2 = Some [100; 111; 103]%N
  ∧ Cards.index (Cards.goNext cards_2) = 2
  ∧ Cards.shownWord (Cards.goNext cards_2) = Some [98; 105; 114; 100]%N
  ∧ Cards.statuses cards_3 !! 0 = Some Cards.correct
  ∧ Cards.statuses cards_3 !! 1 = Some Cards.skipped
  ∧ Cards.statuses cards_3 !! 2 = Some Cards.correct
  ∧ Cards.index cards_3 = 1
  ∧ (∀ m c, m ≠ Cards.correct →
       Cards.index (Cards.updateStatus m c) = Cards.index c
       ∧ Cards.statuses (Cards.updateStatus m c) !! Cards.index c = Some m).
Proof.
  split; [reflexivity|].
  split; [repeat constructor|].
  do 24 (split; [vm_compute; reflexivity|]).
  intros m c Hm. unfold Cards.updateStatus.
  rewrite bool_decide_eq_false_2 by done. simpl.
  split; [done | apply lookup_insert_eq].
Qed.

(** C8, as stated, fails on the trainer of [App.tsx]: with cat marked
    correct and the index on dog, marking dog skipped leaves the index on
    position 1. *)
Lemma cards_skip_stays_on_dog :
  Cards.index cards_1 = 1 ∧ ¬ skip_moves_to_bird cards_1.
Proof.
  split; [reflexivity|]. unfold skip_moves_to_bird. vm_compute. discriminate.
Qed.

(** ** Navigation leaves the statuses alone *)

(** C10.  [prev], [next] and [jumpToWord] of [main.tsx], and [goPrev] and
    [goNext] of [App.tsx], return a state with the statuses (and, in
    [App.tsx], the words) of the state they were given: they change the
    index and the view only. *)
Theorem navigation_keeps_statuses (words : list string) (w : string)
    (st : Trainer.State) (c : Cards.State) :
  Trainer.statuses (Trainer.prev st) = Trainer.statuses st
  ∧ Trainer.statuses (Trainer.next words st) = Trainer.statuses st
  ∧ Trainer.statuses (Trainer.jumpToWord words w st) = Trainer.statuses st
  ∧ Cards.statuses (Cards.goPrev c) = Cards.statuses c
  ∧ Cards.statuses (Cards.goNext c) = Cards.statuses c
  ∧ Cards.words (Cards.goPrev c) = Cards.words c
  ∧ Cards.words (Cards.goNext c) = Cards.words c.
Proof.
  unfold Trainer.next, Trainer.jumpToWord, Cards.goNext, Cards.goToNextUnfinished.
  repeat split; try reflexivity.
  - by destruct (_ =? _).
  - by destruct (_ <=? _).
  - by destruct (Cards.nextUnfinished _ _).
  - by destruct (Cards.nextUnfinished _ _).
Qed.

(** ** The word source *)

Section Lines.
Import Cards.

Lemma trimStart_split (s : jsstring) :
  ∃ pre, s = (pre ++ trimStart s)%list ∧ blank pre = true.
Proof.
  induction s as [|c s (pre & IH & Hpre)]; simpl.
  - by exists [].
  - destruct (is_space c) eqn:Hc.
    + exists (c :: pre). simpl. rewrite Hc, Hpre. by rewrite <- IH.
    + by exists [].
Qed.

Lemma trimStart_head (s : jsstring) (c : N) :
  head (trimStart s) = Some c → is_space c = false.
Proof.
  induction s as [|d s IH]; simpl; [done|].
  destruct (is_space d) eqn:Hd; [done|]. simpl. by intros [= <-].
Qed.

Lemma trimStart_nil (s : jsstring) : trimStart s = [] ↔ blank s = true.
Proof.
  induction s as [|c s IH]; simpl; [done|].
  destruct (is_space c); simpl; [done|]. split; done.
Qed.

Lemma blank_app (a b : jsstring) : blank (a ++ b)%list = blank a && blank b.
Proof. apply forallb_app. Qed.

Lemma blank_reverse (s : jsstring) : blank (reverse s) = blank s.
Proof.
  induction s as [|c s IH]; [done|].
  rewrite reverse_cons, blank_app, IH. simpl. destruct (is_space c), (blank s); done.
Qed.

Lemma trimEnd_split (s : jsstring) :
  ∃ suf, s = (trimEnd s ++ suf)%list ∧ blank suf = true.
Proof.
  destruct (trimStart_split (reverse s)) as (pre & E & Hpre).
  exists (reverse pre). split; [|by rewrite blank_reverse].
  unfold trimEnd. rewrite <- reverse_app, <- E. by rewrite reverse_involutive.
Qed.

Lemma trimEnd_last (s : jsstring) (c : N) :
  last (trimEnd s) = Some c → is_space c = false.
Proof. unfold trimEnd. rewrite last_reverse. apply trimStart_head. Qed.

Lemma trimEnd_nil (s : jsstring) : trimEnd s = [] ↔ blank s = true.
Proof.
  unfold trimEnd. rewrite <- (blank_reverse s), <- trimStart_nil.
  split; [|by intros ->].
  intros H. apply (f_equal reverse) in H. by rewrite reverse_involutive in H.
Qed.

Lemma trim_nil (s : jsstring) : trim s = [] ↔ blank s = true.
Proof.
  unfold trim. rewrite trimEnd_nil.
  destruct (trimStart_split s) as (pre & E & Hpre).
  rewrite E at 2. rewrite blank_app, Hpre. done.
Qed.

(** [trim] takes the white space off both ends and nothing else. *)
Lemma trim_word (l : jsstring) : blank l = false → word_of_line l (trim l).
Proof.
  intros Hl.
  assert (Hne : trim l ≠ []) by (rewrite trim_nil; congruence).
  destruct (trimStart_split l) as (pre & E & Hpre).
  destruct (trimEnd_split (trimStart l)) as (suf & E' & Hsuf).
  fold (trim l) in E'. split; [|split].
  - exists pre, suf. by rewrite <- E', <- E.
  - destruct (trim l) as [|c w] eqn:Ht; [done|]. exists c. split; [done|].
    apply (trimStart_head l). by rewrite E'.
  - destruct (last (trim l)) as [c|] eqn:Hlast.
    + exists c. split; [done|]. by apply (trimEnd_last (trimStart l)).
    + by apply last_None in Hlast.
Qed.

(** *** [split] *)

Lemma split_lines_one (a : jsstring) : 10%N ∉ a → split_lines a = [a].
Proof.
  induction a as [|c a IH]; [done|]. intros [Hc Ha]%not_elem_of_cons.
  simpl. rewrite (IH Ha).
  destruct (N.eqb_spec c 10); [done|].
  destruct (c =? 13)%N; simpl; [|done].
  rewrite bool_decide_eq_false_2; [done|].
  destruct a as [|d a]; [done|]. simpl. intros [= ->]. apply Ha. by left.
Qed.

Lemma split_lines_crlf (a b : jsstring) :
  10%N ∉ a → split_lines (a ++ 13%N :: 10%N :: b)%list = a :: split_lines b.
Proof.
  induction a as [|c a IH]; [done|]. intros [Hc Ha]%not_elem_of_cons.
  cbn [app split_lines]. rewrite (IH Ha).
  destruct (N.eqb_spec c 10); [done|].
  destruct (c =? 13)%N; simpl; [|done].
  rewrite bool_decide_eq_false_2; [done|].
  destruct a as [|d a]; [done|]. simpl. intros [= ->]. apply Ha. by left.
Qed.

Lemma split_lines_lf (a b : jsstring) :
  10%N ∉ a → last a ≠ Some 13%N → split_lines (a ++ 10%N :: b)%list = a :: split_lines b.
Proof.
  induction a as [|c a IH]; [done|]. intros [Hc Ha]%not_elem_of_cons Hlast.
  cbn [app split_lines]. destruct (N.eqb_spec c 10); [done|].
  destruct a as [|d a].
  - simpl. destruct (N.eqb_spec c 13) as [->|]; [done | done].
  - rewrite (IH Ha) by (by rewrite last_cons_cons in Hlast).
    destruct (c =? 13)%N; simpl; [|done].
    rewrite bool_decide_eq_false_2; [done|]. intros [= ->]. apply Ha. by left.
Qed.

Lemma split_lines_no_lf (txt : jsstring) :
  Forall (λ l, 10%N ∉ l) (split_lines txt).
Proof.
  induction txt as [|c txt IH]; simpl.
  - constructor; [apply not_elem_of_nil | constructor].
  - destruct (N.eqb_spec c 10).
    + constructor; [apply not_elem_of_nil | done].
    + destruct (_ && _); [done|].
      destruct (split_lines txt) as [|p ps]; inversion IH; subst.
      * constructor; [|done]. by intros [?|?%not_elem_of_nil]%elem_of_cons.
      * constructor; [|done]. by intros [?|?]%elem_of_cons.
Qed.

(** Lines joined with line feeds split into the same lines. *)
Lemma split_unlines_lines (l : jsstring) (ls : list jsstring) :
  Forall text_line (l :: ls) → split_lines (unlines (l :: ls)) = l :: ls.
Proof.
  revert l. induction ls as [|l' ls IH]; intros l Hall.
  - apply split_lines_one. inversion Hall as [|? ? Hl _]. apply Hl.
  - inversion Hall as [|? ? Hl Hrest]; subst.
    change (unlines (l :: l' :: ls)) with (l ++ 10%N :: unlines (l' :: ls))%list.
    rewrite split_lines_lf; [by rewrite IH | apply Hl | apply Hl].
Qed.

(** The same for lines joined with a carriage return and a line feed. *)
Lemma split_unlines_crlf_lines (l : jsstring) (ls : list jsstring) :
  Forall (λ l, 10%N ∉ l) (l :: ls) → split_lines (unlines_crlf (l :: ls)) = l :: ls.
Proof.
  revert l. induction ls as [|l' ls IH]; intros l Hall.
  - apply split_lines_one. by inversion Hall.
  - inversion Hall as [|? ? Hl Hrest]; subst.
    change (unlines_crlf (l :: l' :: ls))
      with (l ++ 13%N :: 10%N :: unlines_crlf (l' :: ls))%list.
    rewrite split_lines_crlf; [by rewrite IH | done].
Qed.

(** *** [parseWords] *)

Lemma filter_nonempty_trim (lines : list jsstring) :
  List.filter (λ l, 0 <? len l) (map trim lines)
  = omap (λ l, if blank l then None else Some (trim l)) lines.
Proof.
  induction lines as [|l lines IH]; [done|]. cbn -[blank trim len Z.ltb].
  rewrite IH. destruct (blank l) eqn:Hb.
  - apply trim_nil in Hb. rewrite Hb. done.
  - assert (Hne : trim l ≠ []) by (rewrite trim_nil; congruence).
    destruct (trim l); [done|]. done.
Qed.

Lemma omap_sublist {A B} (f : A → option B) (g : A → B) (l : list A) :
  (∀ x y, f x = Some y → y = g x) → sublist (omap f l) (g <$> l).
Proof.
  intros Hfg. induction l as [|x l IH]; simpl; [constructor|].
  destruct (f x) as [y|] eqn:E.
  - rewrite (Hfg x y E). by constructor.
  - by constructor.
Qed.

End Lines.

(** C9.  [parseWords] takes one word per line: the lines of the text, in
    their order, each stripped of the white space around it, without the
    blank ones, and the first 100 of these at most.  A line ends at a
    line feed, and a carriage return right before the line feed belongs
    to the line end: a text without line feed is one line, and a line
    followed by a line end and a rest is that line followed by the lines
    of the rest.  So the text made of given lines, joined by line feeds
    or by carriage returns and line feeds, is parsed to the words of
    these very lines.  [loadTxt] throws when [fetch] fails, when the
    response is not ok and when the text has no word; the error goes to
    the console and no word is set. *)
Theorem parseWords_one_word_per_line (txt : Cards.jsstring) :
  Cards.parseWords txt = words_of_lines (Cards.split_lines txt)
  ∧ (∀ a, 10%N ∉ a → Cards.split_lines a = [a])
  ∧ (∀ a b, text_line a →
       Cards.split_lines (a ++ 10%N :: b)%list = a :: Cards.split_lines b)
  ∧ (∀ a b, 10%N ∉ a →
       Cards.split_lines (a ++ 13%N :: 10%N :: b)%list = a :: Cards.split_lines b)
  ∧ (∀ l ls, Forall text_line (l :: ls) →
       Cards.parseWords (unlines (l :: ls)) = words_of_lines (l :: ls))
  ∧ (∀ l ls, Forall (λ l, 10%N ∉ l) (l :: ls) →
       Cards.parseWords (unlines_crlf (l :: ls)) = words_of_lines (l :: ls))
  ∧ (length (Cards.parseWords txt) ≤ 100)%nat
  ∧ sublist (Cards.parseWords txt) (Cards.trim <$> Cards.split_lines txt)
  ∧ Forall (λ w, ∃ l, l ∈ Cards.split_lines txt ∧ blank l = false ∧ w = Cards.trim l
                      ∧ word_of_line l w) (Cards.parseWords txt)
  ∧ Forall (λ l, 10%N ∉ l) (Cards.split_lines txt)
  ∧ Cards.loadTxt Cards.NetworkFailure = inl Cards.FetchRejected
  ∧ (∀ status, Cards.loadTxt (Cards.Response false status txt) = inl (Cards.FailedToLoad status))
  ∧ (∀ status, Cards.parseWords txt = [] →
       Cards.loadTxt (Cards.Response true status txt) = inl Cards.NoWords)
  ∧ (∀ status, Cards.parseWords txt ≠ [] →
       Cards.loadTxt (Cards.Response true status txt) = inr (Cards.parseWords txt))
  ∧ (∀ r e, Cards.loadTxt r = inl e → Cards.mount r Cards.initial = (Cards.initial, [e])).
Proof.
  assert (Hparse : ∀ t, Cards.parseWords t = words_of_lines (Cards.split_lines t)).
  { intros t. unfold Cards.parseWords, words_of_lines. by rewrite filter_nonempty_trim. }
  pose proof (Hparse txt) as E.
  split; [done|].
  split; [apply split_lines_one|].
  split; [intros a b [Hlf Hcr]; by apply split_lines_lf|].
  split; [apply split_lines_crlf|].
  split; [intros l ls Hall; by rewrite Hparse, split_unlines_lines|].
  split; [intros l ls Hall; by rewrite Hparse, split_unlines_crlf_lines|].
  split.
  { unfold Cards.parseWords. rewrite length_take. lia. }
  split.
  { rewrite E. unfold words_of_lines. etrans; [apply sublist_take|].
    apply omap_sublist. intros l w. destruct (blank l); [done|]. by intros [= <-]. }
  split.
  { rewrite E. unfold words_of_lines. apply Forall_take, Forall_forall.
    intros w (l & Hl & Hw)%list_elem_of_omap.
    destruct (blank l) eqn:Hb; [done|]. injection Hw as <-.
    exists l. repeat split; try done; by apply trim_word. }
  split; [apply split_lines_no_lf|].
  split; [done|]. split; [done|].
  unfold Cards.loadTxt, Cards.mount. simpl. split; [|split].
  - intros _ ->. done.
  - intros _ Hne. destruct (Cards.parseWords txt); done.
  - intros r e. unfold Cards.loadTxt. by intros ->.
Qed.

(** The text of the lines cat, " dog ", an empty one and TAB bird, with
    a carriage return before the first line feed. *)
Example parseWords_sample :
  Cards.parseWords
    [99; 97; 116; 13; 10; 32; 100; 111; 103; 32; 10; 10; 9; 98; 105; 114; 100]%N
  = [[99; 97; 116]; [100; 111; 103]; [98; 105; 114; 100]]%N.
Proof. reflexivity. Qed.

(** ** Persistence *)

Section StoreFacts.
Import Trainer.

(** *** Reading properties *)

Lemma own_prop_list_to_map {V} (f : V → JSValue) (l : list (string * V)) (k : string) :
  own_prop k (prod_map id f <$> l)
  = from_option f JUndefined ((list_to_map l : gmap string V) !! k).
Proof.
  induction l as [|[k' v] l IH]; [done|]. cbn -[bool_decide].
  destruct (decide (k' = k)) as [->|Hne].
  - by rewrite bool_decide_eq_true_2, lookup_insert_eq.
  - by rewrite bool_decide_eq_false_2, lookup_insert_ne.
Qed.

Lemma own_prop_map_to_list {V} (f : V → JSValue) (m : gmap string V) (k : string) :
  own_prop k (prod_map id f <$> map_to_list m) = from_option f JUndefined (m !! k).
Proof. by rewrite own_prop_list_to_map, list_to_map_to_list. Qed.

Lemma coerce_status_to_js (s : Status) :
  coerce_status (nullish (status_to_js s) JNull) = s.
Proof. by destruct s as [[]|]. Qed.

Lemma coerce_status_mark (v : JSValue) (m : Mark) :
  coerce_status (nullish v JNull) = Some m ↔ v = JStr (mark_name m).
Proof.
  destruct v as [| | | |t| |]; simpl; try (split; [done | by destruct m]).
  split.
  - repeat case_bool_decide; subst; intros Heq; inversion Heq; subst; done.
  - intros [= ->]. by destruct m.
Qed.

Lemma get_prop_opt (v : JSValue) (k : string) :
  v ≠ JNull → v ≠ JUndefined → get_prop v k = Ret (opt_prop v k).
Proof. by destruct v. Qed.

Lemma get_prop_throws (v : JSValue) (k : string) :
  get_prop v k = Throw ↔ v = JNull ∨ v = JUndefined.
Proof.
  destruct v; simpl; split; intros Hx; try done;
    try (by left); try (by right); by destruct Hx.
Qed.

(** *** The loop of [loadStore] *)

Section Loop.
Variable words : list string.
Variable parsed : JSValue.

Lemma forEach_load_status (l : list string) (acc : gmap string Status) :
  parsed ≠ JNull → parsed ≠ JUndefined →
  forEach (load_status parsed) acc l
  = Ret (foldl (λ acc w, <[w := coerce_status (nullish (stored_status parsed w) JNull)]> acc) acc l).
Proof.
  intros H1 H2. revert acc. induction l as [|w l IH]; intros acc; [done|].
  cbn [forEach foldl]. unfold load_status at 1.
  rewrite get_prop_opt by done. simpl. apply IH.
Qed.

Lemma forEach_load_status_throws (l : list string) (acc : gmap string Status) :
  parsed = JNull ∨ parsed = JUndefined → l ≠ [] →
  forEach (load_status parsed) acc l = Throw.
Proof.
  intros H Hl. destruct l as [|w l]; [done|].
  cbn [forEach]. unfold load_status.
  by destruct H as [-> | ->].
Qed.
End Loop.

(** *** The clamp *)

Lemma Qle_bool_false (p q : Q) : Qle_bool p q = false → (q <= p)%Q.
Proof.
  intros H. destruct (Qlt_le_dec q p) as [Hlt|Hle]; [by apply Qlt_le_weak|].
  apply Qle_bool_iff in Hle. congruence.
Qed.

Lemma Qle_bool_inject_Z (a b : Z) : Qle_bool (inject_Z a) (inject_Z b) = (a <=? b).
Proof. unfold Qle_bool, inject_Z. simpl. by rewrite !Z.mul_1_r. Qed.

Lemma Qeq_bool_inject_Z (a b : Z) : Qeq_bool (inject_Z a) (inject_Z b) = (a =? b).
Proof. unfold Qeq_bool, inject_Z. simpl. by rewrite !Z.mul_1_r. Qed.

Local Abbreviation clamped n x :=
  (Math_min (Math_max (or_zero x) (of_Z 0)) (of_Z (n - 1))).

Lemma clamped_in_range (n : Z) (x : JSNumber) :
  0 < n → in_index_range n (clamped n x).
Proof.
  intros Hn. unfold in_index_range.
  assert (H0 : Qle_bool 0 (inject_Z (n - 1)) = true).
  { change 0%Q with (inject_Z 0). rewrite Qle_bool_inject_Z. apply Z.leb_le. lia. }
  assert (Hz : ∃ q, Math_min (Math_max (of_Z 0) (of_Z 0)) (of_Z (n - 1)) = Finite q
                    ∧ (0 <= q)%Q ∧ (q <= inject_Z (n - 1))%Q).
  { exists 0%Q. simpl. unfold of_Z. change (inject_Z 0) with 0%Q. rewrite H0.
    split; [done|]. split; [apply Qle_refl | by apply Qle_bool_iff]. }
  destruct x as [|[]|q]; simpl.
  - exact Hz.
  - exact Hz.
  - exists (inject_Z (n - 1)). split; [done|].
    split; [by apply Qle_bool_iff | apply Qle_refl].
  - destruct (Qeq_bool q 0); [exact Hz|]. simpl.
    destruct (Qle_bool q (inject_Z 0)) eqn:E1; simpl.
    + exact Hz.
    + destruct (Qle_bool q (inject_Z (n - 1))) eqn:E2.
      * exists q. split; [done|].
        split; [by apply Qle_bool_false in E1 | by apply Qle_bool_iff].
      * exists (inject_Z (n - 1)). split; [done|].
        split; [by apply Qle_bool_iff | apply Qle_refl].
Qed.

Lemma clamped_keeps (n : Z) (q : Q) :
  (0 < q)%Q → (q <= inject_Z (n - 1))%Q → clamped n (Finite q) = Finite q.
Proof.
  intros Hpos Hle. simpl.
  assert (E0 : Qeq_bool q 0 = false).
  { destruct (Qeq_bool q 0) eqn:E; [|done].
    apply Qeq_bool_iff in E. rewrite E in Hpos. by apply Qlt_irrefl in Hpos. }
  rewrite E0. simpl.
  assert (E1 : Qle_bool q (inject_Z 0) = false).
  { destruct (Qle_bool q (inject_Z 0)) eqn:E; [|done].
    apply Qle_bool_iff in E. exfalso. apply (Qlt_irrefl 0).
    eapply Qlt_le_trans; [exact Hpos | exact E]. }
  rewrite E1. simpl.
  apply Qle_bool_iff in Hle. by rewrite Hle.
Qed.

(** What is not a number, what is negative and zero go to 0. *)
Lemma clamped_low (n : Z) (x : JSNumber) :
  0 < n →
  x = NaN ∨ x = Infinity true ∨ (∃ q, x = Finite q ∧ (q <= 0)%Q) →
  clamped n x = of_Z 0.
Proof.
  intros Hn Hx.
  assert (H0 : Qle_bool 0 (inject_Z (n - 1)) = true).
  { change 0%Q with (inject_Z 0). rewrite Qle_bool_inject_Z. apply Z.leb_le. lia. }
  assert (Hz : Math_min (of_Z 0) (of_Z (n - 1)) = of_Z 0).
  { simpl. unfold of_Z. change (inject_Z 0) with 0%Q. by rewrite H0. }
  destruct Hx as [->|[->|(q & -> & Hq)]]; simpl.
  - exact Hz.
  - exact Hz.
  - destruct (Qeq_bool q 0); [exact Hz|]. simpl.
    apply Qle_bool_iff in Hq. change 0%Q with (inject_Z 0) in Hq. rewrite Hq. exact Hz.
Qed.

(** What lies beyond the last position goes to the last position. *)
Lemma clamped_high (n : Z) (x : JSNumber) :
  0 < n →
  x = Infinity false ∨ (∃ q, x = Finite q ∧ (inject_Z (n - 1) < q)%Q) →
  clamped n x = of_Z (n - 1).
Proof.
  intros Hn [->|(q & -> & Hq)]; [done|].
  assert (Hpos : (0 < q)%Q).
  { eapply Qle_lt_trans; [|exact Hq]. change 0%Q with (inject_Z 0).
    rewrite <- Zle_Qle. lia. }
  assert (E2 : Qle_bool q (inject_Z (n - 1)) = false).
  { destruct (Qle_bool q (inject_Z (n - 1))) eqn:E; [|done].
    apply Qle_bool_iff in E. exfalso. apply (Qlt_irrefl q).
    eapply Qle_lt_trans; [exact E | exact Hq]. }
  simpl.
  assert (E0 : Qeq_bool q 0 = false).
  { destruct (Qeq_bool q 0) eqn:E; [|done].
    apply Qeq_bool_iff in E. rewrite E in Hpos. by apply Qlt_irrefl in Hpos. }
  rewrite E0. simpl.
  assert (E1 : Qle_bool q (inject_Z 0) = false).
  { destruct (Qle_bool q (inject_Z 0)) eqn:E; [|done].
    apply Qle_bool_iff in E. exfalso. apply (Qlt_irrefl 0).
    eapply Qlt_le_trans; [exact Hpos | exact E]. }
  rewrite E1. simpl. by rewrite E2.
Qed.

Lemma clamped_integer (n i : Z) :
  0 < n → clamped n (of_Z i) = clamp_index n (of_Z i).
Proof.
  intros Hn. unfold clamp_index, of_Z. simpl.
  change 0%Q with (inject_Z 0).
  rewrite Qeq_bool_inject_Z, !Qle_bool_inject_Z.
  destruct (Z.eqb_spec i 0) as [->|Hne]; simpl.
  - change (inject_Z 0) with 0%Q. simpl.
    change 0%Q with (inject_Z 0). rewrite Qle_bool_inject_Z.
    destruct (Z.leb_spec 0 (n - 1)); [done | lia].
  - rewrite Qle_bool_inject_Z.
    destruct (Z.leb_spec i 0), (Z.leb_spec 0 i); simpl; try lia.
    + rewrite Qle_bool_inject_Z. destruct (Z.leb_spec 0 (n - 1)); [done | lia].
    + rewrite Qle_bool_inject_Z. by destruct (Z.leb_spec i (n - 1)).
Qed.

End StoreFacts.

Section LoadStore.
Import Trainer.
Variable words : list string.
Variable JSON_parse : string → Exc JSValue.
Variable JSON_stringify : JSValue → Exc string.
Variable ToNumber_other : JSValue → Exc JSNumber.

Local Abbreviation load := (loadStore words JSON_parse ToNumber_other).

(** [loadStore] on a value that parses to something other than [null]. *)
Lemma loadStore_parsed (ls : Storage) (raw : string) (parsed : JSValue) (x : JSNumber) :
  denied ls = false → items ls !! STORAGE_KEY = Some raw → raw ≠ EmptyString →
  JSON_parse raw = Ret parsed → parsed ≠ JNull → parsed ≠ JUndefined →
  Number ToNumber_other (opt_prop parsed "index") = Ret x →
  load ls = Some (mkStore
    (foldl (λ acc w, <[w := coerce_status (nullish (stored_status parsed w) JNull)]> acc) ∅ words)
    (Math_min (Math_max (or_zero x) (of_Z 0)) (of_Z (len words - 1)))).
Proof.
  intros Hd Hraw Hne Hp H1 H2 Hx. unfold loadStore, getItem. rewrite Hd, Hraw. simpl.
  destruct raw as [|a raw]; [done|]. rewrite Hp. simpl.
  rewrite forEach_load_status by done. simpl.
  rewrite get_prop_opt by done. simpl. rewrite Hx. done.
Qed.

(** [Number] of a missing index is [NaN]; the conversion throws for
    strings, arrays and objects only. *)
Lemma Number_throws (v : JSValue) :
  Number ToNumber_other v = Throw → v ≠ JUndefined ∧ v ≠ JNull.
Proof. by destruct v. Qed.

(** [loadStore] on a value whose index [Number] cannot convert. *)
Lemma loadStore_unconvertible (ls : Storage) (raw : string) (parsed : JSValue) :
  items ls !! STORAGE_KEY = Some raw → JSON_parse raw = Ret parsed →
  Number ToNumber_other (opt_prop parsed "index") = Throw →
  load ls = None.
Proof.
  intros Hraw Hp Hx. unfold loadStore, getItem. destruct (denied ls); [done|].
  rewrite Hraw. simpl. destruct raw as [|a raw]; [done|]. rewrite Hp. simpl.
  destruct (forEach _ _ _) as [sts|]; [|done]. simpl.
  destruct parsed as [| | | | | |props]; try done. simpl in *. by rewrite Hx.
Qed.

Lemma loadStore_absent (ls : Storage) :
  denied ls = true ∨ items ls !! STORAGE_KEY = None ∨ items ls !! STORAGE_KEY = Some EmptyString →
  load ls = None.
Proof.
  unfold loadStore, getItem. intros [Hd|[Hraw|Hraw]].
  - by rewrite Hd.
  - destruct (denied ls); [done|]. by rewrite Hraw.
  - destruct (denied ls); [done|]. by rewrite Hraw.
Qed.

Lemma loadStore_unparsed (ls : Storage) (raw : string) :
  items ls !! STORAGE_KEY = Some raw →
  JSON_parse raw = Throw ∨ JSON_parse raw = Ret JNull ∨ JSON_parse raw = Ret JUndefined →
  load ls = None.
Proof.
  intros Hraw Hp. unfold loadStore, getItem. destruct (denied ls); [done|].
  rewrite Hraw. simpl. destruct raw as [|a raw]; [done|].
  destruct Hp as [Hp|[Hp|Hp]]; rewrite Hp; simpl; [done| |].
  - destruct words as [|w l]; simpl; [done|]. done.
  - destruct words as [|w l]; simpl; [done|]. done.
Qed.

Lemma loadStore_None (ls : Storage) :
  load ls = None ↔
  denied ls = true ∨ items ls !! STORAGE_KEY = None ∨ items ls !! STORAGE_KEY = Some EmptyString
  ∨ ∃ raw, items ls !! STORAGE_KEY = Some raw
           ∧ (JSON_parse raw = Throw ∨ JSON_parse raw = Ret JNull ∨ JSON_parse raw = Ret JUndefined
              ∨ ∃ parsed, JSON_parse raw = Ret parsed
                          ∧ Number ToNumber_other (opt_prop parsed "index") = Throw).
Proof.
  split.
  - intros Hload. destruct (denied ls) eqn:Hd; [by left|]. right.
    destruct (items ls !! STORAGE_KEY) as [raw|] eqn:Hraw; [|by left]. right.
    destruct (decide (raw = EmptyString)) as [->|Hne]; [by left|]. right.
    exists raw. split; [done|].
    destruct (JSON_parse raw) as [parsed|] eqn:Hp; [|by left]. right.
    assert (Hcases : parsed = JNull ∨ parsed = JUndefined
                     ∨ (parsed ≠ JNull ∧ parsed ≠ JUndefined)).
    { destruct parsed; auto. }
    destruct Hcases as [->|[->|[H1 H2]]]; [by left | right; by left |].
    right. right. exists parsed. split; [done|].
    destruct (Number ToNumber_other (opt_prop parsed "index")) as [x|] eqn:Hx; [|done].
    by rewrite (loadStore_parsed ls raw parsed x) in Hload.
  - intros [Hd|[Hraw|[Hraw|(raw & Hraw & Hp)]]].
    + apply loadStore_absent. by left.
    + apply loadStore_absent. right. by left.
    + apply loadStore_absent. right. by right.
    + destruct Hp as [Hp|[Hp|[Hp|(parsed & Hp & Hx)]]].
      * apply (loadStore_unparsed ls raw); auto.
      * apply (loadStore_unparsed ls raw); auto.
      * apply (loadStore_unparsed ls raw); auto.
      * by apply (loadStore_unconvertible ls raw parsed).
Qed.

(** *** Saving, then loading *)

Lemma saveStore_written (data : StoreShape) (ls : Storage) (text : string) :
  JSON_stringify (store_to_js data) = Ret text →
  denied ls = false → (String.length text ≤ quota ls)%nat →
  saveStore JSON_stringify data ls
  = mkStorage (<[STORAGE_KEY := text]> (items ls)) (quota ls) (denied ls).
Proof.
  intros Hs Hd Hq. unfold saveStore, setItem. rewrite Hs, Hd. simpl.
  destruct (Nat.ltb_spec (quota ls) (String.length text)); [lia | done].
Qed.

Lemma stored_status_of_store (data : StoreShape) (w : string) :
  stored_status (store_to_js data) w
  = from_option status_to_js JUndefined (store_statuses data !! w).
Proof. unfold stored_status. simpl. apply own_prop_map_to_list. Qed.

Lemma loaded_statuses (data : StoreShape) :
  Forall (λ w, is_Some (store_statuses data !! w)) words →
  foldl (λ acc w, <[w := coerce_status (nullish (stored_status (store_to_js data) w) JNull)]> acc)
    ∅ words
  = filter (λ kv, kv.1 ∈ words) (store_statuses data).
Proof.
  intros Hall. apply map_eq. intros k.
  rewrite (lookup_foldl_insert
    (λ w, coerce_status (nullish (stored_status (store_to_js data) w) JNull))).
  rewrite map_lookup_filter. destruct (decide (k ∈ words)) as [Hin|Hout].
  - rewrite Forall_forall in Hall. destruct (Hall k Hin) as [s Hs].
    rewrite stored_status_of_store, Hs. simpl.
    rewrite coerce_status_to_js. by rewrite option_guard_True.
  - rewrite lookup_empty. destruct (store_statuses data !! k); simpl; [|done].
    by rewrite option_guard_False.
Qed.

Lemma filter_words_id (m : gmap string Status) :
  (∀ k, is_Some (m !! k) → k ∈ words) → filter (λ kv, kv.1 ∈ words) m = m.
Proof.
  intros Hdom. apply map_eq. intros k. rewrite map_lookup_filter.
  destruct (m !! k) as [v|] eqn:E; simpl; [|done].
  rewrite option_guard_True; [done|]. apply Hdom. by rewrite E.
Qed.

End LoadStore.



(** The state comes back as it was saved. *)
Example scenario_round_trip :
  Trainer.loadStore scenario_words JSONRef.parse JSONRef.to_number_other
    (Trainer.saveStore JSONRef.stringify scenario_store (Trainer.mkStorage ∅ 4096 false))
  = Some scenario_store.
Proof. vm_compute. reflexivity. Qed.



(** C6, as the code has it.  [loadStore] returns [null] exactly when the
    store denies access, the key is absent or holds the empty string, the
    text fails to parse, it parses to [null], or [Number] throws on the
    stored index.  Every other stored value, of whatever shape, is
    normalized: the result has a status for each word and for nothing
    else; the status is the stored one when that is the string of a mark,
    and [null] otherwise; the index is [Number] of the stored one, put
    into [0, wordCount-1]: 0 for [NaN], for [-Infinity] and for a number
    that is zero or below, [wordCount-1] for [Infinity] and for a number
    above it, and the number itself in between.  [Number] is [NaN] for a
    missing index, 0 for [null] and [false], 1 for [true], and the number
    for a number. *)
Theorem loadStore_normalizes (words : list string)
    (JSON_parse : string → Trainer.Exc Trainer.JSValue)
    (ToNumber_other : Trainer.JSValue → Trainer.Exc Trainer.JSNumber)
    (ls : Trainer.Storage) :
  0 < len words →
  (Trainer.loadStore words JSON_parse ToNumber_other ls = None ↔
     Trainer.denied ls = true
     ∨ Trainer.items ls !! Trainer.STORAGE_KEY = None
     ∨ Trainer.items ls !! Trainer.STORAGE_KEY = Some EmptyString
     ∨ ∃ raw, Trainer.items ls !! Trainer.STORAGE_KEY = Some raw
              ∧ (JSON_parse raw = Trainer.Throw
                 ∨ JSON_parse raw = Trainer.Ret Trainer.JNull
                 ∨ JSON_parse raw = Trainer.Ret Trainer.JUndefined
                 ∨ ∃ parsed, JSON_parse raw = Trainer.Ret parsed
                     ∧ Trainer.Number ToNumber_other (Trainer.opt_prop parsed "index")
                       = Trainer.Throw))
  ∧ (∀ raw parsed x,
       Trainer.denied ls = false →
       Trainer.items ls !! Trainer.STORAGE_KEY = Some raw → raw ≠ EmptyString →
       JSON_parse raw = Trainer.Ret parsed →
       parsed ≠ Trainer.JNull → parsed ≠ Trainer.JUndefined →
       Trainer.Number ToNumber_other (Trainer.opt_prop parsed "index") = Trainer.Ret x →
       ∃ s, Trainer.loadStore words JSON_parse ToNumber_other ls = Some s
         ∧ (∀ k, is_Some (Trainer.store_statuses s !! k) ↔ k ∈ words)
         ∧ (∀ w m, w ∈ words →
              (Trainer.store_statuses s !! w = Some (Some m)
               ↔ stored_status parsed w = Trainer.JStr (mark_name m)))
         ∧ (∀ w, w ∈ words →
              (∀ m, stored_status parsed w ≠ Trainer.JStr (mark_name m)) →
              Trainer.store_statuses s !! w = Some Trainer.null)
         ∧ in_index_range (len words) (Trainer.store_index s)
         ∧ (x = Trainer.NaN ∨ x = Trainer.Infinity true
            ∨ (∃ q, x = Trainer.Finite q ∧ (q <= 0)%Q) →
            Trainer.store_index s = Trainer.of_Z 0)
         ∧ (x = Trainer.Infinity false
            ∨ (∃ q, x = Trainer.Finite q ∧ (inject_Z (len words - 1) < q)%Q) →
            Trainer.store_index s = Trainer.of_Z (len words - 1))
         ∧ (∀ q, x = Trainer.Finite q →
              (0 < q)%Q → (q <= inject_Z (len words - 1))%Q →
              Trainer.store_index s = Trainer.Finite q))
  ∧ (Trainer.Number ToNumber_other Trainer.JUndefined = Trainer.Ret Trainer.NaN
     ∧ Trainer.Number ToNumber_other Trainer.JNull = Trainer.Ret (Trainer.of_Z 0)
     ∧ Trainer.Number ToNumber_other (Trainer.JBool false) = Trainer.Ret (Trainer.of_Z 0)
     ∧ Trainer.Number ToNumber_other (Trainer.JBool true) = Trainer.Ret (Trainer.of_Z 1)
     ∧ (∀ n, Trainer.Number ToNumber_other (Trainer.JNum n) = Trainer.Ret n)
     ∧ (∀ v, Trainer.Number ToNumber_other v = Trainer.Throw →
          Trainer.Number ToNumber_other v = ToNumber_other v
          ∧ ((∃ t, v = Trainer.JStr t) ∨ (∃ l, v = Trainer.JArr l)
             ∨ (∃ props, v = Trainer.JObj props)))).
Proof.
  intros Hn. split; [apply loadStore_None|]. split.
  2: { do 5 (split; [done|]). intros v Hv. split; [by destruct v|]. destruct v; eauto; done. }
  intros raw parsed x Hd Hraw Hne Hp H1 H2 Hx.
  eexists. split; [by apply (loadStore_parsed _ _ _ ls raw parsed x)|]. simpl.
  pose proof (lookup_foldl_insert
    (λ w, Trainer.coerce_status (Trainer.nullish (stored_status parsed w) Trainer.JNull))
    words ∅) as Hlook.
  split; [|split; [|split; [|split; [|split; [|split]]]]].
  - intros k. rewrite Hlook. destruct (decide (k ∈ words)); [by split; eauto|].
    rewrite lookup_empty. split; [by intros [? ?] | done].
  - intros w m Hw. rewrite Hlook, decide_True by done.
    rewrite <- coerce_status_mark. split; [by intros [= ?] | by intros ->].
  - intros w Hw Hnot. rewrite Hlook, decide_True by done. f_equal.
    destruct (Trainer.coerce_status _) as [m|] eqn:E; [|done].
    apply coerce_status_mark in E. destruct (Hnot m E).
  - by apply clamped_in_range.
  - by apply clamped_low.
  - by apply clamped_high.
  - intros q -> Hpos Hle. by apply clamped_keeps.
Qed.

(** The sample text is loaded with the listed mark kept, the status that
    is no mark unset and the index 99 brought back to 24, the last of the
    25 positions; the text whose index cannot be converted loads
    [null]. *)
Lemma loadStore_normalizes_witness :
  0 < len Trainer.WORDS
  ∧ (∃ s, Trainer.loadStore Trainer.WORDS JSONRef.parse JSONRef.to_number_other
            (holding stored_sample) = Some s
        ∧ Trainer.store_statuses s !! "knight" = Some (Some Trainer.correct)
        ∧ Trainer.store_statuses s !! "write" = Some Trainer.null
        ∧ ¬ is_Some (Trainer.store_statuses s !! "zebra")
        ∧ Trainer.store_index s = Trainer.of_Z 24)
  ∧ Trainer.loadStore Trainer.WORDS JSONRef.parse JSONRef.to_number_other
      (holding stored_unconvertible) = None.
Proof.
  split; [reflexivity|].
  destruct (loadStore_normalizes Trainer.WORDS JSONRef.parse JSONRef.to_number_other
              (holding stored_sample) eq_refl) as (_ & Hsome & _).
  destruct (Hsome stored_sample
              (Trainer.try_catch (JSONRef.parse stored_sample) Trainer.JNull)
              (Trainer.of_Z 99))
    as (s & Hload & Hkeys & Hmark & Hnull & _ & _ & Hhigh & _).
  - reflexivity.
  - reflexivity.
  - vm_compute. discriminate.
  - vm_compute. reflexivity.
  - vm_compute. discriminate.
  - vm_compute. discriminate.
  - vm_compute. reflexivity.
  - split.
    + exists s. split; [exact Hload|]. split; [|split; [|split]].
      * apply Hmark; [|vm_compute; reflexivity].
        apply (bool_decide_unpack _). vm_compute. exact I.
      * apply Hnull; [apply (bool_decide_unpack _); vm_compute; exact I|].
        intros m. vm_compute. by destruct m.
      * rewrite Hkeys. apply (bool_decide_unpack _). vm_compute. exact I.
      * apply Hhigh. right. exists (inject_Z 99). split; [reflexivity|].
        vm_compute. reflexivity.
    + apply (loadStore_normalizes Trainer.WORDS JSONRef.parse JSONRef.to_number_other
               (holding stored_unconvertible) eq_refl).
      right. right. right. exists stored_unconvertible. split; [reflexivity|].
      right. right. right.
      exists (Trainer.try_catch (JSONRef.parse stored_unconvertible) Trainer.JNull).
      split; vm_compute; reflexivity.
Defined.

(** What [loadStore] makes of the stored text [{}]: every word unset and
    the index 0, not [null]. *)
Example loadStore_empty_object :
  Trainer.loadStore Trainer.WORDS JSONRef.parse JSONRef.to_number_other (holding "{}")
  = Some (Trainer.mkStore (Trainer.cleared Trainer.WORDS) (Trainer.of_Z 0)).
Proof. vm_compute. reflexivity. Qed.

(** An index [true] is read as 1, the second word. *)
Example loadStore_true_index :
  Trainer.loadStore Trainer.WORDS JSONRef.parse JSONRef.to_number_other
    (holding stored_true_index)
  = Some (Trainer.mkStore (Trainer.cleared Trainer.WORDS) (Trainer.of_Z 1)).
Proof. vm_compute. reflexivity. Qed.

(** C6, as stated, fails: the stored texts [{}] and [42] parse to values
    that are no [StoreShape], and [loadStore] returns a state for them. *)
Lemma malformed_value_loads_state :
  ¬ malformed_loads_null Trainer.WORDS JSONRef.parse JSONRef.to_number_other "{}"
  ∧ ¬ malformed_loads_null Trainer.WORDS JSONRef.parse JSONRef.to_number_other "42".
Proof.
  split.
  - intros H. specialize (H (Trainer.JObj []) eq_refl eq_refl).
    vm_compute in H. discriminate.
  - intros H. specialize (H (Trainer.JNum (Trainer.Finite 42)) eq_refl eq_refl).
    vm_compute in H. discriminate.
Qed.

(** * More of the code *)

(** ** The state invariant of [main.tsx] *)

Section TrainerInvariant.
Import Trainer.
Variable words : list string.

Lemma nextIndex_in_range (st : State) (from : Z) :
  0 ≤ from < len words → 0 ≤ nextIndex words st from < len words.
Proof.
  intros Hfrom. unfold nextIndex.
  destruct (Z.ltb_spec from (len words - 1)); [lia|].
  pose proof (findIndex_range (remaining_word (statuses st)) words) as Hrange.
  cbn zeta. destruct (Z.eqb_spec (findIndex (remaining_word (statuses st)) words) (-1)); lia.
Qed.

Lemma well_formed_index (st : State) (i : Z) (v : View) :
  well_formed words st → 0 ≤ i < len words →
  well_formed words (mkState (statuses st) i v).
Proof. intros [_ Hdom] Hi. by split. Qed.

Lemma prev_well_formed (st : State) :
  well_formed words st → well_formed words (prev st).
Proof.
  intros Hwf. apply well_formed_index; [done|]. destruct Hwf as [Hi _].
  destruct (Z.ltb_spec 0 (index st)); lia.
Qed.

Lemma next_well_formed (st : State) :
  well_formed words st → well_formed words (next words st).
Proof.
  intros Hwf. unfold next. destruct (_ =? _).
  - apply well_formed_index; [done | apply Hwf].
  - apply well_formed_index; [done|]. apply nextIndex_in_range, Hwf.
Qed.

Lemma word_key_elem (i : Z) :
  0 ≤ i < len words → word_key words i ∈ words.
Proof.
  intros Hi. unfold word_key. destruct (at_index_is_Some words i Hi) as [w Hw].
  rewrite Hw. by apply at_index_elem in Hw.
Qed.

Lemma handleMark_well_formed (m : Mark) (st : State) :
  well_formed words st → well_formed words (handleMark words m st).
Proof.
  intros [Hi Hdom].
  assert (Hsts : ∀ w, is_Some (<[word_key words (index st) := Some m]> (statuses st) !! w)
                      ↔ w ∈ words).
  { intros w. destruct (decide (w = word_key words (index st))) as [->|Hne].
    - rewrite lookup_insert_eq. split; [intros _; by apply word_key_elem | by eauto].
    - rewrite lookup_insert_ne by done. apply Hdom. }
  unfold handleMark. cbn zeta. destruct (_ =? _); split; simpl; try done.
  by apply nextIndex_in_range.
Qed.

Lemma indexOf_range (w : string) : -1 ≤ indexOf w words < len words.
Proof. apply findIndex_range. Qed.

Lemma jumpToWord_well_formed (w : string) (st : State) :
  well_formed words st → well_formed words (jumpToWord words w st).
Proof.
  intros Hwf. unfold jumpToWord. pose proof (indexOf_range w) as Hrange.
  cbn zeta. destruct (Z.leb_spec 0 (indexOf w words)) as [Hpos|Hneg]; [|exact Hwf].
  apply (well_formed_index st (indexOf w words) trainer Hwf). lia.
Qed.

Lemma resetAll_well_formed (st : State) :
  0 < len words → well_formed words (resetAll words st).
Proof.
  intros Hn. split; simpl; [lia|]. intros w. rewrite cleared_lookup.
  destruct (decide (w ∈ words)); split; try done; by intros [? ?].
Qed.

Lemma toggleView_well_formed (st : State) :
  well_formed words st → well_formed words (toggleView st).
Proof. intros Hwf. apply well_formed_index; [done | apply Hwf]. Qed.

Lemma initial_well_formed : 0 < len words → well_formed words (initial words).
Proof.
  intros Hn. split; simpl; [lia|]. intros w. rewrite cleared_lookup.
  destruct (decide (w ∈ words)); split; try done; by intros [? ?].
Qed.

(** *** The keyboard *)

Lemma lower_is_letter (key : string) (c : ascii) :
  (97 ≤ nat_of_ascii c ≤ 122)%nat →
  toLowerCase key = String c EmptyString ↔
  key = String c EmptyString ∨ key = String (ascii_of_nat (nat_of_ascii c - 32)) EmptyString.
Proof.
  intros Hc. split.
  - destruct key as [|a [|b key]]; simpl; try done. intros [= Ha].
    unfold lower_char in Ha.
    destruct (_ || _)%bool eqn:Hup.
    + right. f_equal. rewrite <- Ha, nat_ascii_embedding.
      * rewrite Nat.add_sub. by rewrite ascii_nat_embedding.
      * pose proof (nat_ascii_bounded a). rewrite <- Ha in Hc.
        destruct (decide (nat_of_ascii a + 32 < 256)%nat) as [|Hge]; [done|].
        exfalso. apply orb_prop in Hup as [Hup|Hup].
        -- apply orb_prop in Hup as [Hup|Hup]; apply andb_prop in Hup as [_ Hle];
             apply Nat.leb_le in Hle; lia.
        -- apply andb_prop in Hup as [_ Hle]. apply Nat.leb_le in Hle. lia.
    + left. by subst.
  - intros [->| ->]; simpl; f_equal; unfold lower_char.
    + assert (Hlow : ((65 <=? nat_of_ascii c) && (nat_of_ascii c <=? 90)
                      || (192 <=? nat_of_ascii c) && (nat_of_ascii c <=? 214)
                      || (216 <=? nat_of_ascii c) && (nat_of_ascii c <=? 222))%nat = false).
      { repeat (apply orb_false_intro); apply andb_false_iff;
          rewrite ?Nat.leb_gt; lia. }
      by rewrite Hlow.
    + rewrite nat_ascii_embedding by lia.
      assert (Hup : ((65 <=? nat_of_ascii c - 32) && (nat_of_ascii c - 32 <=? 90)
                     || (192 <=? nat_of_ascii c - 32) && (nat_of_ascii c - 32 <=? 214)
                     || (216 <=? nat_of_ascii c - 32) && (nat_of_ascii c - 32 <=? 222))%nat = true).
      { apply orb_true_intro. left. apply orb_true_intro. left.
        apply andb_true_intro. split; apply Nat.leb_le; lia. }
      rewrite Hup. replace (nat_of_ascii c - 32 + 32)%nat with (nat_of_ascii c) by lia.
      apply ascii_nat_embedding.
Qed.

End TrainerInvariant.

Section Keyboard.
Import Trainer.
Variable words : list string.

Lemma lower_c (key : string) : toLowerCase key = "c" ↔ key = "c" ∨ key = "C".
Proof. apply (lower_is_letter key "c"%char). split; apply Nat.leb_le; reflexivity. Qed.

Lemma lower_x (key : string) : toLowerCase key = "x" ↔ key = "x" ∨ key = "X".
Proof. apply (lower_is_letter key "x"%char). split; apply Nat.leb_le; reflexivity. Qed.

Lemma lower_s (key : string) : toLowerCase key = "s" ↔ key = "s" ∨ key = "S".
Proof. apply (lower_is_letter key "s"%char). split; apply Nat.leb_le; reflexivity. Qed.

(** At most one test of the listener succeeds. *)
Lemma keydown_trainer (key : string) (st : State) :
  view st = trainer →
  keydown words key st =
    if bool_decide (key = "c" ∨ key = "C") then handleMark words correct st
    else if bool_decide (key = "x" ∨ key = "X") then handleMark words incorrect st
    else if bool_decide (key = "s" ∨ key = "S") then handleMark words skipped st
    else if bool_decide (key = "ArrowRight" ∨ key = " ") then next words st
    else if bool_decide (key = "ArrowLeft") then prev st
    else st.
Proof.
  intros Hview. unfold keydown. rewrite Hview. cbn zeta.
  rewrite (bool_decide_ext _ _ (lower_c key)), (bool_decide_ext _ _ (lower_x key)),
    (bool_decide_ext _ _ (lower_s key)).
  unfold when.
  destruct (decide (key = "c" ∨ key = "C")) as [Hc|Hc].
  { rewrite (bool_decide_eq_true_2 _ Hc).
    rewrite !bool_decide_eq_false_2; [done|..]; destruct Hc as [-> | ->];
      try done; by intros [?|?]. }
  rewrite (bool_decide_eq_false_2 _ Hc).
  destruct (decide (key = "x" ∨ key = "X")) as [Hx|Hx].
  { rewrite (bool_decide_eq_true_2 _ Hx).
    rewrite !bool_decide_eq_false_2; [done|..]; destruct Hx as [-> | ->];
      try done; by intros [?|?]. }
  rewrite (bool_decide_eq_false_2 _ Hx).
  destruct (decide (key = "s" ∨ key = "S")) as [Hs|Hs].
  { rewrite (bool_decide_eq_true_2 _ Hs).
    rewrite !bool_decide_eq_false_2; [done|..]; destruct Hs as [-> | ->];
      try done; by intros [?|?]. }
  rewrite (bool_decide_eq_false_2 _ Hs).
  destruct (decide (key = "ArrowRight")) as [->|Hr]; [reflexivity|].
  rewrite (bool_decide_eq_false_2 _ Hr). simpl.
  destruct (decide (key = " ")) as [->|Hsp]; [reflexivity|].
  rewrite (bool_decide_eq_false_2 _ Hsp).
  rewrite (bool_decide_eq_false_2 (key = "ArrowRight" ∨ key = " ")) by (by intros [?|?]).
  done.
Qed.

Lemma keydown_well_formed (key : string) (st : State) :
  well_formed words st → well_formed words (keydown words key st).
Proof.
  intros Hwf. destruct (view st) eqn:Hview.
  - rewrite keydown_trainer by done.
    repeat case_bool_decide;
      auto using handleMark_well_formed, next_well_formed, prev_well_formed.
  - unfold keydown. by rewrite Hview.
Qed.

Lemma dispatch_well_formed (e : Event) (st : State) :
  well_formed words st → well_formed words (dispatch words e st).
Proof.
  intros Hwf. assert (Hn : 0 < len words) by (destruct Hwf as [? _]; lia).
  unfold dispatch. destruct e, (view st) eqn:Hview;
    auto using keydown_well_formed, handleMark_well_formed, prev_well_formed,
      toggleView_well_formed, resetAll_well_formed, jumpToWord_well_formed.
  destruct (allDone words st); auto using next_well_formed.
Qed.

Lemma run_well_formed (events : list Event) (st : State) :
  well_formed words st → well_formed words (run words events st).
Proof.
  unfold run. revert st. induction events as [|e events IH]; intros st Hwf; [done|].
  simpl. by apply IH, dispatch_well_formed.
Qed.

Lemma handleMark_other (m : Mark) (st : State) (w : string) :
  w ≠ word_key words (index st) →
  statuses (handleMark words m st) !! w = statuses st !! w.
Proof. intros Hne. by rewrite handleMark_statuses, lookup_insert_ne. Qed.

Lemma next_statuses (st : State) : statuses (next words st) = statuses st.
Proof. unfold next. by destruct (_ =? _). Qed.

End Keyboard.

(** X1.  Every handler of [main.tsx] returns a well-formed state when it
    is given one: the index stays a position of the list and the statuses
    keep one entry for each word and none for anything else.  [resetAll]
    needs no more than a word list that is not empty. *)
Theorem handlers_keep_well_formed (words : list string) (m : Trainer.Mark) (w : string)
    (st : Trainer.State) :
  well_formed words st →
  well_formed words (Trainer.prev st)
  ∧ well_formed words (Trainer.next words st)
  ∧ well_formed words (Trainer.handleMark words m st)
  ∧ well_formed words (Trainer.jumpToWord words w st)
  ∧ well_formed words (Trainer.toggleView st)
  ∧ (∀ st', well_formed words (Trainer.resetAll words st'))
  ∧ 0 ≤ Trainer.nextIndex words st (Trainer.index st) < len words.
Proof.
  intros Hwf. assert (Hn : 0 < len words) by (destruct Hwf as [? _]; lia).
  split; [by apply prev_well_formed|].
  split; [by apply next_well_formed|].
  split; [by apply handleMark_well_formed|].
  split; [by apply jumpToWord_well_formed|].
  split; [by apply toggleView_well_formed|].
  split; [intros st'; by apply resetAll_well_formed|].
  apply nextIndex_in_range, Hwf.
Qed.

Lemma handlers_keep_well_formed_witness :
  well_formed Trainer.WORDS (Trainer.handleMark Trainer.WORDS Trainer.skipped
                               (Trainer.initial Trainer.WORDS)).
Proof.
  apply (handlers_keep_well_formed Trainer.WORDS Trainer.skipped "music"
           (Trainer.initial Trainer.WORDS)).
  apply initial_well_formed. reflexivity.
Defined.

(** X2.  Whatever the user does, key presses and clicks in any order, a
    well-formed state stays well-formed; the card therefore always shows a
    word of the list, and that word has a status. *)
Theorem session_keeps_well_formed (words : list string) (events : list Trainer.Event)
    (st : Trainer.State) :
  well_formed words st →
  well_formed words (Trainer.run words events st)
  ∧ ∃ w s, at_index words (Trainer.index (Trainer.run words events st)) = Some w
           ∧ Trainer.statuses (Trainer.run words events st) !! w = Some s.
Proof.
  intros Hwf. pose proof (run_well_formed words events st Hwf) as Hrun.
  split; [done|]. destruct Hrun as [Hi Hdom].
  destruct (at_index_is_Some words _ Hi) as [w Hw]. exists w.
  destruct (proj2 (Hdom w) (at_index_elem _ _ _ Hw)) as [s Hs]. by exists s.
Qed.

Lemma session_keeps_well_formed_witness :
  well_formed Trainer.WORDS
    (Trainer.run Trainer.WORDS
       [Trainer.KeyDown "C"; Trainer.ClickNext; Trainer.KeyDown "ArrowLeft";
        Trainer.ClickToggle; Trainer.ClickWord "toy"; Trainer.ClickMark Trainer.skipped]
       (Trainer.initial Trainer.WORDS)).
Proof.
  apply (session_keeps_well_formed Trainer.WORDS
           [Trainer.KeyDown "C"; Trainer.ClickNext; Trainer.KeyDown "ArrowLeft";
            Trainer.ClickToggle; Trainer.ClickWord "toy"; Trainer.ClickMark Trainer.skipped]
           (Trainer.initial Trainer.WORDS)).
  apply initial_well_formed. reflexivity.
Defined.

(** X3.  The keyboard.  In the summary view no key does anything.  In the
    trainer view the keys c, x and s, in either case, mark the current
    word correct, incorrect and skipped, the right arrow and the space bar
    act as Next, the left arrow as Prev, and no other key changes the
    state; no key changes the status of a word other than the current
    one. *)
Theorem keydown_shortcuts (words : list string) (key : string) (st : Trainer.State) :
  (Trainer.view st = Trainer.summary → Trainer.keydown words key st = st)
  ∧ (Trainer.view st = Trainer.trainer →
     Trainer.keydown words key st =
       if bool_decide (key = "c" ∨ key = "C") then Trainer.handleMark words Trainer.correct st
       else if bool_decide (key = "x" ∨ key = "X") then Trainer.handleMark words Trainer.incorrect st
       else if bool_decide (key = "s" ∨ key = "S") then Trainer.handleMark words Trainer.skipped st
       else if bool_decide (key = "ArrowRight" ∨ key = " ") then Trainer.next words st
       else if bool_decide (key = "ArrowLeft") then Trainer.prev st
       else st)
  ∧ (∀ w, w ≠ Trainer.word_key words (Trainer.index st) →
       Trainer.statuses (Trainer.keydown words key st) !! w = Trainer.statuses st !! w).
Proof.
  split; [|split].
  - intros Hview. unfold Trainer.keydown. by rewrite Hview.
  - apply keydown_trainer.
  - intros w Hw. destruct (Trainer.view st) eqn:Hview.
    + rewrite keydown_trainer by done.
      repeat case_bool_decide; rewrite ?handleMark_other, ?next_statuses by done; done.
    + unfold Trainer.keydown. by rewrite Hview.
Qed.

(** ** Groups and progress *)

Section Groups.
Import Trainer.
Variable words : list string.
Variable st : State.

Local Abbreviation is_marked m :=
  (λ w : string, bool_decide (statuses st !! w = Some (Some m))).

Lemma groups_fold (l : list string) (g : Groups) :
  foldl (λ g w,
    match statuses st !! w with
    | Some (Some correct) => mkGroups (g_correct g ++ [w]) (g_incorrect g) (notAnswered g)
    | Some (Some incorrect) => mkGroups (g_correct g) (g_incorrect g ++ [w]) (notAnswered g)
    | _ => mkGroups (g_correct g) (g_incorrect g) (notAnswered g ++ [w])
    end) g l
  = mkGroups (g_correct g ++ List.filter (is_marked correct) l)
             (g_incorrect g ++ List.filter (is_marked incorrect) l)
             (notAnswered g ++ List.filter (λ w, negb (answered st w)) l).
Proof.
  revert g. induction l as [|w l IH]; intros g.
  - simpl. rewrite !app_nil_r. by destruct g.
  - cbn [foldl List.filter]. rewrite IH. unfold answered.
    destruct (statuses st !! w) as [[[]|]|]; simpl; by rewrite <- ?app_assoc.
Qed.

Lemma groups_filters :
  groups words st
  = mkGroups (List.filter (is_marked correct) words)
             (List.filter (is_marked incorrect) words)
             (List.filter (λ w, negb (answered st w)) words).
Proof. unfold groups. by rewrite groups_fold. Qed.

Lemma groups_partition (l : list string) :
  l ≡ₚ List.filter (is_marked correct) l ++ List.filter (is_marked incorrect) l
       ++ List.filter (λ w, negb (answered st w)) l.
Proof.
  induction l as [|w l IH]; [done|]. cbn [List.filter]. unfold answered.
  destruct (statuses st !! w) as [[[]|]|] eqn:E; simpl.
  - by constructor.
  - rewrite <- Permutation_middle. by constructor.
  - rewrite app_assoc, <- Permutation_middle, <- app_assoc. by constructor.
  - rewrite app_assoc, <- Permutation_middle, <- app_assoc. by constructor.
  - rewrite app_assoc, <- Permutation_middle, <- app_assoc. by constructor.
Qed.

Lemma answered_filters (l : list string) :
  (length (List.filter (is_marked correct) l) + length (List.filter (is_marked incorrect) l))%nat
  = length (List.filter (answered st) l).
Proof.
  induction l as [|w l IH]; [done|]. cbn [List.filter]. unfold answered at 1.
  destruct (statuses st !! w) as [[[]|]|]; simpl; lia.
Qed.

Lemma answeredCount_filter :
  answeredCount words st = len (List.filter (answered st) words).
Proof.
  unfold answeredCount, len. rewrite groups_filters. simpl.
  rewrite <- answered_filters. lia.
Qed.

Lemma filter_split_length (p : string → bool) (l : list string) :
  (length (List.filter p l) + length (List.filter (λ w, negb (p w)) l))%nat = length l.
Proof. induction l as [|w l IH]; [done|]. simpl. destruct (p w); simpl; lia. Qed.

End Groups.

(** X4.  [groups]: each of the three arrays holds the words of its kind in
    the order of the list, every word of the list is in exactly one of
    them, and a word is not answered when its status is neither correct
    nor incorrect (unset, skipped, or missing). *)
Theorem groups_partition_words (words : list string) (st : Trainer.State) :
  Trainer.g_correct (Trainer.groups words st)
  = List.filter (λ w, bool_decide (Trainer.statuses st !! w = Some (Some Trainer.correct))) words
  ∧ Trainer.g_incorrect (Trainer.groups words st)
    = List.filter (λ w, bool_decide (Trainer.statuses st !! w = Some (Some Trainer.incorrect))) words
  ∧ Trainer.notAnswered (Trainer.groups words st)
    = List.filter (λ w, negb (answered st w)) words
  ∧ words ≡ₚ Trainer.g_correct (Trainer.groups words st)
              ++ Trainer.g_incorrect (Trainer.groups words st)
              ++ Trainer.notAnswered (Trainer.groups words st).
Proof.
  rewrite groups_filters. simpl. repeat split. apply groups_partition.
Qed.

(** X5.  [answeredCount] and the not-answered group add up to the number
    of words, so the count never exceeds it, and [allDone] holds exactly
    when every word is counted. *)
Theorem answeredCount_allDone (words : list string) (st : Trainer.State) :
  Trainer.answeredCount words st + len (Trainer.notAnswered (Trainer.groups words st))
  = len words
  ∧ 0 ≤ Trainer.answeredCount words st ≤ len words
  ∧ (Trainer.allDone words st = true ↔ Trainer.answeredCount words st = len words).
Proof.
  assert (Hsum : Trainer.answeredCount words st
                 + len (Trainer.notAnswered (Trainer.groups words st)) = len words).
  { rewrite answeredCount_filter, groups_notAnswered. unfold len.
    pose proof (filter_split_length (answered st) words). lia. }
  split; [done|]. unfold Trainer.allDone. rewrite Z.eqb_eq.
  rewrite answeredCount_filter in *. unfold len in *. split; lia.
Qed.

Section Progress.
Import Trainer.
Variable words : list string.

Lemma filter_length_mono (p q : string → bool) (l : list string) :
  (∀ w, p w = true → q w = true) →
  (length (List.filter p l) ≤ length (List.filter q l))%nat.
Proof.
  intros Hpq. induction l as [|w l IH]; [done|]. simpl.
  destruct (p w) eqn:Hp.
  - rewrite (Hpq w Hp). simpl. lia.
  - destruct (q w); simpl; lia.
Qed.

Lemma answered_after_mark (m : Mark) (st : State) (w : string) :
  m ≠ skipped →
  answered (handleMark words m st) w
  = answered st w || bool_decide (w = word_key words (index st)).
Proof.
  intros Hm. unfold answered. rewrite handleMark_statuses.
  destruct (decide (w = word_key words (index st))) as [->|Hne].
  - rewrite lookup_insert_eq, bool_decide_eq_true_2, orb_true_r by done. by destruct m.
  - rewrite lookup_insert_ne, bool_decide_eq_false_2, orb_false_r by done. done.
Qed.

Lemma filter_one_more (p : string → bool) (k : string) (l : list string) :
  NoDup l → k ∈ l → p k = false →
  length (List.filter (λ w, p w || bool_decide (w = k)) l) = S (length (List.filter p l)).
Proof.
  induction l as [|w l IH]; intros Hnd Hk Hp; [by apply elem_of_nil in Hk|].
  apply NoDup_cons in Hnd as [Hw Hnd]. simpl.
  destruct (decide (w = k)) as [->|Hne].
  - rewrite Hp, bool_decide_eq_true_2 by done. simpl. f_equal.
    f_equal. apply List.filter_ext_in. intros x Hx%list_elem_of_In.
    rewrite bool_decide_eq_false_2; [by rewrite orb_false_r|]. by intros ->.
  - rewrite bool_decide_eq_false_2, orb_false_r by done.
    apply elem_of_cons in Hk as [?|Hk]; [congruence|].
    destruct (p w); simpl; by rewrite IH.
Qed.

End Progress.

(** X6.  Progress only grows under marks that answer: marking the current
    word correct or incorrect never lowers [answeredCount], and raises it
    by one when the word was not answered before (the words being
    distinct). *)
Theorem answering_raises_count (words : list string) (m : Trainer.Mark) (st : Trainer.State) :
  m ≠ Trainer.skipped →
  Trainer.answeredCount words st ≤ Trainer.answeredCount words (Trainer.handleMark words m st)
  ∧ (∀ w, NoDup words → at_index words (Trainer.index st) = Some w → answered st w = false →
       Trainer.answeredCount words (Trainer.handleMark words m st)
       = Trainer.answeredCount words st + 1).
Proof.
  intros Hm. rewrite !answeredCount_filter. unfold len. split.
  - apply inj_le, filter_length_mono. intros w Hw.
    rewrite (answered_after_mark words m st w Hm), Hw. done.
  - intros w Hnd Hw Hun.
    assert (Hkey : Trainer.word_key words (Trainer.index st) = w)
      by (unfold Trainer.word_key; by rewrite Hw).
    rewrite (List.filter_ext _ _ (λ x, answered_after_mark words m st x Hm)), Hkey.
    rewrite filter_one_more; [lia | done | by apply at_index_elem in Hw | done].
Qed.

Lemma answering_raises_count_witness :
  Trainer.answeredCount Trainer.WORDS (Trainer.initial Trainer.WORDS)
  ≤ Trainer.answeredCount Trainer.WORDS
      (Trainer.handleMark Trainer.WORDS Trainer.incorrect (Trainer.initial Trainer.WORDS)).
Proof.
  apply (answering_raises_count Trainer.WORDS Trainer.incorrect (Trainer.initial Trainer.WORDS)).
  discriminate.
Defined.

(** ** Jumping to a word *)

Section Jump.
Import Trainer.
Variable words : list string.

Lemma indexOf_found (w : string) :
  w ∈ words →
  at_index words (indexOf w words) = Some w
  ∧ ∀ j, 0 ≤ j < indexOf w words → at_index words j ≠ Some w.
Proof.
  intros Hw. pose proof (findIndex_range (λ x, bool_decide (x = w)) words) as Hrange.
  fold (indexOf w words) in Hrange.
  assert (Hpos : 0 ≤ indexOf w words).
  { destruct (decide (indexOf w words = -1)) as [E|]; [|lia].
    apply findIndex_absent in E. rewrite Forall_forall in E.
    specialize (E w Hw). by rewrite bool_decide_eq_true_2 in E. }
  destruct (findIndex_first _ words _ eq_refl Hpos) as [(x & Hx & Hp) Hbefore].
  apply bool_decide_eq_true in Hp. subst x. split; [done|].
  intros j Hj Hat. specialize (Hbefore j w Hj Hat).
  by rewrite bool_decide_eq_true_2 in Hbefore.
Qed.

Lemma indexOf_absent (w : string) : w ∉ words → indexOf w words = -1.
Proof.
  intros Hw. apply findIndex_absent, Forall_forall. intros x Hx.
  apply bool_decide_eq_false_2. by intros ->.
Qed.

End Jump.

(** X7.  [jumpToWord] on a word of the list puts the index on the first
    position holding that word and opens the trainer view, leaving the
    statuses alone; on any other string it does nothing. *)
Theorem jumpToWord_first_position (words : list string) (w : string) (st : Trainer.State) :
  (w ∈ words →
     at_index words (Trainer.index (Trainer.jumpToWord words w st)) = Some w
     ∧ (∀ j, 0 ≤ j < Trainer.index (Trainer.jumpToWord words w st) → at_index words j ≠ Some w)
     ∧ Trainer.view (Trainer.jumpToWord words w st) = Trainer.trainer
     ∧ Trainer.statuses (Trainer.jumpToWord words w st) = Trainer.statuses st)
  ∧ (w ∉ words → Trainer.jumpToWord words w st = st).
Proof.
  unfold Trainer.jumpToWord. cbn zeta. split.
  - intros Hw. destruct (indexOf_found words w Hw) as [Hat Hfirst].
    pose proof (at_index_range _ _ _ Hat) as Hrange.
    destruct (Z.leb_spec 0 (indexOf w words)); [|lia]. done.
  - intros Hw. by rewrite indexOf_absent.
Qed.

(** ** Working through the list *)

Section FullPass.
Import Trainer.
Variable words : list string.
Variable m : Mark.

Local Abbreviation after k := (Nat.iter k (handleMark words m) (initial words)).

(** After [k] marks from the start, the index is on word [k] and the
    words before it carry the mark. *)
Lemma pass_prefix (k : nat) :
  Z.of_nat k ≤ len words - 1 →
  index (after k) = Z.of_nat k ∧ view (after k) = trainer
  ∧ ∀ j w, 0 ≤ j < Z.of_nat k → at_index words j = Some w →
           statuses (after k) !! w = Some (Some m).
Proof.
  induction k as [|k IH]; intros Hk.
  - simpl. repeat split. intros j w Hj. lia.
  - destruct IH as (Hi & Hv & Hsts); [lia|].
    rewrite Nat.iter_succ. destruct (handleMark_inner words m (after k)) as [Hi' Hv']; [lia|].
    rewrite Hi', Hv', Hi. split; [lia|]. split; [done|].
    intros j w Hj Hw. rewrite handleMark_statuses, Hi.
    destruct (decide (w = word_key words (Z.of_nat k))) as [->|Hne].
    + by rewrite lookup_insert_eq.
    + rewrite lookup_insert_ne by done. apply (Hsts j); [|done].
      destruct (decide (j = Z.of_nat k)) as [->|]; [|lia].
      destruct Hne. unfold word_key. by rewrite Hw.
Qed.

Lemma pass_all_marked :
  0 < len words →
  ∀ w, w ∈ words → statuses (after (length words)) !! w = Some (Some m).
Proof.
  intros Hn w Hw. unfold len in Hn.
  destruct (length words) as [|k] eqn:Hlen; [lia|].
  destruct (pass_prefix k) as (Hi & _ & Hsts); [unfold len; lia|].
  rewrite Nat.iter_succ. rewrite handleMark_statuses, Hi.
  destruct (decide (w = word_key words (Z.of_nat k))) as [->|Hne].
  - by rewrite lookup_insert_eq.
  - rewrite lookup_insert_ne by done.
    apply list_elem_of_lookup in Hw as [j Hj].
    pose proof (lookup_lt_Some _ _ _ Hj) as Hlt.
    assert (Hat : at_index words (Z.of_nat j) = Some w).
    { unfold at_index. destruct (Z.leb_spec 0 (Z.of_nat j)); [|lia]. by rewrite Nat2Z.id. }
    apply (Hsts (Z.of_nat j)); [|done].
    destruct (decide (j = k)) as [->|]; [|lia].
    destruct Hne. unfold word_key. by rewrite Hat.
Qed.

End FullPass.

(** X8.  Working through the list once: from the initial state, marking
    each word in turn correct (or each incorrect) ends with every word
    carrying the mark, the session complete, the summary open and the
    index on the last word.  Skipping each word in turn instead brings the
    index back to the first word, in the trainer view, when the list has
    more than one word. *)
Theorem working_through_the_list (words : list string) (m : Trainer.Mark) :
  0 < len words →
  Forall (λ w, Trainer.statuses
                 (Nat.iter (length words) (Trainer.handleMark words m) (Trainer.initial words)) !! w
               = Some (Some m)) words
  ∧ (m ≠ Trainer.skipped →
     Trainer.allDone words
       (Nat.iter (length words) (Trainer.handleMark words m) (Trainer.initial words)) = true
     ∧ Trainer.view
         (Nat.iter (length words) (Trainer.handleMark words m) (Trainer.initial words))
       = Trainer.summary
     ∧ Trainer.index
         (Nat.iter (length words) (Trainer.handleMark words m) (Trainer.initial words))
       = len words - 1)
  ∧ (m = Trainer.skipped → 1 < len words →
     Trainer.view
       (Nat.iter (length words) (Trainer.handleMark words m) (Trainer.initial words))
     = Trainer.trainer
     ∧ Trainer.index
         (Nat.iter (length words) (Trainer.handleMark words m) (Trainer.initial words))
       = 0).
Proof.
  intros Hn.
  assert (Hall : ∀ w, w ∈ words →
            Trainer.statuses
              (Nat.iter (length words) (Trainer.handleMark words m) (Trainer.initial words)) !! w
            = Some (Some m)) by (by apply pass_all_marked).
  split; [by apply Forall_forall|].
  unfold len in Hn. destruct (length words) as [|k] eqn:Hlen; [lia|].
  destruct (pass_prefix words m k) as (Hi & Hv & Hsts); [unfold len; lia|].
  assert (Hlast : len words - 1 = Z.of_nat k) by (unfold len; lia).
  split.
  - intros Hm. split.
    + apply allDone_answered, Forall_forall. intros w Hw. unfold answered.
      rewrite (Hall w Hw). by destruct m.
    + rewrite Nat.iter_succ.
      destruct (handleMark_last_alone words m
                  (Nat.iter k (Trainer.handleMark words m) (Trainer.initial words)))
        as [Hi' Hv']; [lia| |].
      * intros j Hj (w & Hw & Hs). pose proof (at_index_range _ _ _ Hw) as Hrange.
        rewrite Hi in Hj. rewrite (Hsts j w ltac:(lia) Hw) in Hs.
        destruct Hs as [Hs|Hs]; congruence.
      * rewrite Hv', Hi', Hi. split; [done | lia].
  - intros -> Hlen2. rewrite Nat.iter_succ.
    destruct (at_index_is_Some words 0) as [w0 Hw0]; [unfold len; lia|].
    destruct (handleMark_last_found words Trainer.skipped
                (Nat.iter k (Trainer.handleMark words Trainer.skipped) (Trainer.initial words)) 0)
      as [Hi' Hv']; [lia| |unfold len in *; lia|].
    + split; [|intros j Hj; lia].
      exists w0. split; [done|]. right. apply (Hsts 0); [unfold len in *; lia | done].
    + by rewrite Hi', Hv', Hv.
Qed.

Lemma working_through_the_list_witness :
  Trainer.allDone Trainer.WORDS
    (Nat.iter (length Trainer.WORDS) (Trainer.handleMark Trainer.WORDS Trainer.correct)
       (Trainer.initial Trainer.WORDS)) = true.
Proof.
  destruct (working_through_the_list Trainer.WORDS Trainer.correct eq_refl) as (_ & Hdone & _).
  apply Hdone. discriminate.
Defined.

(** ** The trainer of [App.tsx]: the index and a full pass *)

Section CardsInvariant.
Import Cards.

Lemma nextUnfinished_range (c : State) (start r : Z) :
  0 ≤ start < len (words c) → nextUnfinished start c = Some r → 0 ≤ r < len (words c).
Proof. intros Hs Hr. by destruct (nextUnfinished_nearest c start r Hs Hr). Qed.

Lemma updateStatus_words (s : Status) (c : State) : words (updateStatus s c) = words c.
Proof.
  unfold updateStatus, goToNextUnfinished.
  destruct (bool_decide _); [|done]. by destruct (nextUnfinished _ _).
Qed.

Lemma updateStatus_index_range (s : Status) (c : State) :
  on_a_word c → 0 ≤ index (updateStatus s c) < len (words c).
Proof.
  intros Hc. unfold updateStatus, goToNextUnfinished.
  destruct (bool_decide _); [|done].
  destruct (nextUnfinished (index c) c) as [r|] eqn:Hr; [|done].
  simpl. by apply (nextUnfinished_range c (index c)).
Qed.

Lemma goNext_index_range (c : State) :
  on_a_word c → 0 ≤ index (goNext c) < len (words c).
Proof.
  intros Hc. unfold goNext, goToNextUnfinished.
  destruct (nextUnfinished (index c) c) as [r|] eqn:Hr; [|done].
  simpl. by apply (nextUnfinished_range c (index c)).
Qed.

Local Abbreviation pass ws k := (Nat.iter k (updateStatus correct) (mkState ws ∅ 0)).

Lemma cards_pass_prefix (ws : list jsstring) (k : nat) :
  Z.of_nat k ≤ len ws - 1 →
  index (pass ws k) = Z.of_nat k ∧ words (pass ws k) = ws
  ∧ (∀ j, 0 ≤ j < Z.of_nat k → statuses (pass ws k) !! j = Some correct)
  ∧ (∀ j, Z.of_nat k ≤ j → statuses (pass ws k) !! j = None).
Proof.
  induction k as [|k IH]; intros Hk.
  - simpl. split; [done|]. split; [done|]. split; [intros; lia | intros; apply lookup_empty].
  - destruct IH as (Hi & Hw & Hdone & Hrest); [lia|].
    rewrite Nat.iter_succ. rewrite updateStatus_words, updateStatus_statuses,
      updateStatus_correct_index, Hi, Hw.
    destruct (nextUnfinished_prefers_later (pass ws k) (Z.of_nat k) (Z.of_nat k + 1))
      as (r & Hr & Hrange).
    { rewrite Hw. lia. }
    { unfold unfinished. by rewrite Hrest by lia. }
    rewrite Hr. simpl. split; [lia|]. split; [done|]. split.
    + intros j Hj. destruct (decide (j = Z.of_nat k)) as [->|].
      * by rewrite lookup_insert_eq.
      * rewrite lookup_insert_ne by done. apply Hdone. lia.
    + intros j Hj. rewrite lookup_insert_ne by lia. apply Hrest. lia.
Qed.

End CardsInvariant.

(** X9.  In [App.tsx] the index stays on a word: Prev, Next, each of the
    three marks, Reset and Summary return a state whose index is a
    position of the unchanged word list, so the card always has a word to
    show. *)
Theorem cards_index_stays_on_a_word (s : Cards.Status) (c : Cards.State) :
  on_a_word c →
  on_a_word (Cards.goPrev c) ∧ on_a_word (Cards.goNext c)
  ∧ on_a_word (Cards.updateStatus s c) ∧ on_a_word (Cards.reset c)
  ∧ on_a_word (Cards.showFirst c)
  ∧ Cards.words (Cards.updateStatus s c) = Cards.words c
  ∧ is_Some (Cards.shownWord c).
Proof.
  intros Hc. unfold on_a_word in *.
  split; [|split; [|split; [|split; [|split; [|split]]]]].
  - simpl. destruct (Z.ltb_spec 0 (Cards.index c)); lia.
  - replace (Cards.words (Cards.goNext c)) with (Cards.words c).
    + by apply goNext_index_range.
    + unfold Cards.goNext, Cards.goToNextUnfinished. by destruct (Cards.nextUnfinished _ _).
  - rewrite updateStatus_words. by apply updateStatus_index_range.
  - simpl. lia.
  - simpl. lia.
  - apply updateStatus_words.
  - by apply at_index_is_Some.
Qed.

Lemma cards_index_stays_on_a_word_witness :
  on_a_word (Cards.updateStatus Cards.correct (Cards.mkState [[97%N]; [98%N]] ∅ 1)).
Proof.
  apply (cards_index_stays_on_a_word Cards.correct (Cards.mkState [[97%N]; [98%N]] ∅ 1)).
  vm_compute. split; [discriminate | reflexivity].
Defined.

(** X10.  A full pass in [App.tsx]: from a fresh state on the first word,
    marking correct once for each word walks the list in order and ends
    with every position correct and the index on the last word; Next then
    does nothing. *)
Theorem cards_full_pass (ws : list Cards.jsstring) :
  0 < len ws →
  Cards.index (Nat.iter (length ws) (Cards.updateStatus Cards.correct) (Cards.mkState ws ∅ 0))
  = len ws - 1
  ∧ (∀ j, 0 ≤ j < len ws →
       Cards.statuses
         (Nat.iter (length ws) (Cards.updateStatus Cards.correct) (Cards.mkState ws ∅ 0)) !! j
       = Some Cards.correct)
  ∧ Cards.goNext
      (Nat.iter (length ws) (Cards.updateStatus Cards.correct) (Cards.mkState ws ∅ 0))
    = Nat.iter (length ws) (Cards.updateStatus Cards.correct) (Cards.mkState ws ∅ 0).
Proof.
  intros Hn. unfold len in Hn. destruct (length ws) as [|k] eqn:Hlen; [lia|].
  destruct (cards_pass_prefix ws k) as (Hi & Hw & Hdone & Hrest); [unfold len; lia|].
  assert (Hk : len ws - 1 = Z.of_nat k) by (unfold len; lia).
  assert (Hon : 0 ≤ Cards.index (Nat.iter k (Cards.updateStatus Cards.correct)
                                   (Cards.mkState ws ∅ 0))
                < len (Cards.words (Nat.iter k (Cards.updateStatus Cards.correct)
                                      (Cards.mkState ws ∅ 0)))).
  { rewrite Hi, Hw. lia. }
  assert (Hsts : ∀ j, 0 ≤ j < len ws →
            Cards.statuses (Nat.iter (S k) (Cards.updateStatus Cards.correct)
                              (Cards.mkState ws ∅ 0)) !! j = Some Cards.correct).
  { intros j Hj. rewrite Nat.iter_succ. rewrite updateStatus_statuses, Hi.
    destruct (decide (j = Z.of_nat k)) as [->|]; [by rewrite lookup_insert_eq|].
    rewrite lookup_insert_ne by done. apply Hdone. lia. }
  assert (Hidx : Cards.index (Nat.iter (S k) (Cards.updateStatus Cards.correct)
                                (Cards.mkState ws ∅ 0)) = Z.of_nat k).
  { rewrite Nat.iter_succ. rewrite <- Hi. apply updateStatus_correct_stays; [done|].
    intros j Hj. rewrite Hw in Hj. unfold unfinished.
    rewrite <- Nat.iter_succ.
    rewrite Hsts by done. by intros H. }
  split; [lia|]. split; [done|].
  apply goNext_complete.
  - rewrite Nat.iter_succ, updateStatus_words, Hw, <- Nat.iter_succ, Hidx. lia.
  - intros j Hj. rewrite Nat.iter_succ, updateStatus_words, Hw in Hj.
    unfold unfinished. rewrite Hsts by done. by intros H.
Qed.

Lemma cards_full_pass_witness :
  Cards.index (Nat.iter 3 (Cards.updateStatus Cards.correct)
                 (Cards.mkState [[97%N]; [98%N]; [99%N]] ∅ 0)) = 2.
Proof.
  apply (cards_full_pass [[97%N]; [98%N]; [99%N]]). reflexivity.
Defined.

(** X11.  The mount effect.  When [loadTxt] succeeds the words are set,
    nothing goes to the console, the loading screen is gone, the list has
    between 1 and 100 words and the card shows the first; when it throws,
    the state keeps its empty list and the loading screen stays. *)
Theorem mount_outcome (r : Cards.Fetched) :
  (∀ ws, Cards.loadTxt r = inr ws →
     Cards.mount r Cards.initial = (Cards.setWords ws Cards.initial, [])
     ∧ Cards.loading (Cards.mount r Cards.initial).1 = false
     ∧ 0 < len ws ≤ 100
     ∧ on_a_word (Cards.mount r Cards.initial).1
     ∧ Cards.shownWord (Cards.mount r Cards.initial).1 = head ws)
  ∧ (∀ e, Cards.loadTxt r = inl e →
     Cards.loading (Cards.mount r Cards.initial).1 = true
     ∧ (Cards.mount r Cards.initial).2 = [e]).
Proof.
  split.
  - intros ws Hws. unfold Cards.mount. rewrite Hws. simpl.
    assert (Hlen : 0 < len ws ≤ 100).
    { unfold Cards.loadTxt in Hws. destruct r as [|ok status txt]; [done|].
      destruct ok; simpl in Hws; [|done].
      destruct (Z.eqb_spec (len (Cards.parseWords txt)) 0) as [|Hne]; [done|].
      injection Hws as <-. unfold len in *. unfold Cards.parseWords in *.
      rewrite length_take in *. lia. }
    unfold Cards.loading, on_a_word, Cards.shownWord. simpl.
    split; [done|]. split; [destruct (Z.eqb_spec (len ws) 0); [lia | done]|].
    split; [done|]. split; [lia|]. unfold at_index. simpl. by destruct ws.
  - intros e He. unfold Cards.mount. rewrite He. done.
Qed.

(** ** Word files *)

Section WordFiles.
Import Cards.

Lemma trimStart_clean (w : jsstring) (c : N) :
  head w = Some c → is_space c = false → trimStart w = w.
Proof. destruct w as [|d w]; [done|]. simpl. intros [= ->] ->. done. Qed.

Lemma trim_clean (w : jsstring) : clean_word w → trim w = w.
Proof.
  intros (_ & (c & Hc & Hsc) & (d & Hd & Hsd)). unfold trim, trimEnd.
  rewrite (trimStart_clean w c) by done.
  rewrite (trimStart_clean (reverse w) d); [apply reverse_involutive | | done].
  by rewrite head_reverse.
Qed.

Lemma clean_not_blank (w : jsstring) : clean_word w → blank w = false.
Proof.
  intros (_ & (c & Hc & Hsc) & _). destruct w as [|d w]; [done|].
  injection Hc as ->. unfold blank. simpl. by rewrite Hsc.
Qed.

Lemma clean_last_not_cr (w : jsstring) : clean_word w → last w ≠ Some 13%N.
Proof. intros (_ & _ & (d & Hd & Hsd)) E. rewrite Hd in E. by injection E as ->. Qed.

Lemma split_unlines (w : jsstring) (ws : list jsstring) :
  Forall clean_word (w :: ws) → split_lines (unlines (w :: ws)) = w :: ws.
Proof.
  revert w. induction ws as [|w' ws IH]; intros w Hall.
  - apply split_lines_one. inversion Hall as [|? ? Hw _]. apply Hw.
  - inversion Hall as [|? ? Hw Hrest]; subst.
    change (unlines (w :: w' :: ws)) with (w ++ 10%N :: unlines (w' :: ws))%list.
    rewrite split_lines_lf; [by rewrite IH | apply Hw | by apply clean_last_not_cr].
Qed.

Lemma split_unlines_crlf (w : jsstring) (ws : list jsstring) :
  Forall clean_word (w :: ws) → split_lines (unlines_crlf (w :: ws)) = w :: ws.
Proof.
  revert w. induction ws as [|w' ws IH]; intros w Hall.
  - apply split_lines_one. inversion Hall as [|? ? Hw _]. apply Hw.
  - inversion Hall as [|? ? Hw Hrest]; subst.
    change (unlines_crlf (w :: w' :: ws))
      with (w ++ 13%N :: 10%N :: unlines_crlf (w' :: ws))%list.
    rewrite split_lines_crlf; [by rewrite IH | apply Hw].
Qed.

Lemma omap_clean (ws : list jsstring) :
  Forall clean_word ws →
  omap (λ l, if blank l then None else Some (trim l)) ws = ws.
Proof.
  induction 1 as [|w ws Hw Hall IH]; [done|]. cbn -[blank trim].
  by rewrite (clean_not_blank w Hw), (trim_clean w Hw), IH.
Qed.

Lemma parseWords_of_lines (txt : jsstring) (ws : list jsstring) :
  split_lines txt = ws → Forall clean_word ws → parseWords txt = take 100 ws.
Proof.
  intros Hsplit Hall. unfold parseWords.
  by rewrite filter_nonempty_trim, Hsplit, omap_clean.
Qed.

(** The words [parseWords] returns are clean. *)
Lemma parseWords_clean (txt : jsstring) : Forall clean_word (parseWords txt).
Proof.
  unfold parseWords. rewrite filter_nonempty_trim. apply Forall_take, Forall_forall.
  intros w (l & Hl & Hw)%list_elem_of_omap.
  destruct (blank l) eqn:Hb; [done|]. injection Hw as <-.
  destruct (trim_word l Hb) as ((pre & suf & E) & Hhead & Hlast).
  split; [|done]. destruct E as (E & _ & _).
  pose proof (split_lines_no_lf txt) as Hno. rewrite Forall_forall in Hno.
  intros Hin. apply (Hno l Hl). rewrite E.
  apply elem_of_app. right. apply elem_of_app. by left.
Qed.

Lemma split_lines_blank (txt : jsstring) :
  blank txt = true → Forall (λ l, blank l = true) (split_lines txt).
Proof.
  induction txt as [|c txt IH]; [by repeat constructor|].
  unfold blank. simpl. intros [Hc Hrest]%andb_prop. specialize (IH Hrest).
  destruct (c =? 10)%N; [by constructor|].
  destruct (_ && _); [done|].
  destruct (split_lines txt) as [|p ps]; inversion IH; subst.
  - constructor; [|done]. simpl. by rewrite Hc.
  - constructor; [|done]. unfold blank in *. simpl. rewrite Hc. done.
Qed.

Lemma omap_blank (ls : list jsstring) :
  Forall (λ l, blank l = true) ls →
  omap (λ l, if blank l then None else Some (trim l)) ls = [].
Proof. induction 1 as [|l ls Hl Hall IH]; [done|]. cbn -[blank trim]. by rewrite Hl. Qed.

Lemma parseWords_unlines_take (ws : list jsstring) :
  Forall clean_word ws → parseWords (unlines ws) = take 100 ws.
Proof.
  intros Hall. destruct ws as [|w ws]; [done|].
  by apply parseWords_of_lines; [apply split_unlines|].
Qed.

Lemma parseWords_length (txt : jsstring) : (length (parseWords txt) ≤ 100)%nat.
Proof. unfold parseWords. rewrite length_take. lia. Qed.

End WordFiles.

(** X12.  A word file read back.  For words that are not empty, hold no
    line feed and neither start nor end with white space, [parseWords] of
    the words written one per line, with line feeds or with carriage
    returns and line feeds between them, is the list of the words, cut
    after the hundredth. *)
Theorem parseWords_unlines (ws : list Cards.jsstring) :
  Forall clean_word ws →
  Cards.parseWords (unlines ws) = take 100 ws
  ∧ Cards.parseWords (unlines_crlf ws) = take 100 ws
  ∧ ((length ws ≤ 100)%nat → Cards.parseWords (unlines ws) = ws).
Proof.
  intros Hall. pose proof (parseWords_unlines_take ws Hall) as H1.
  split; [done|]. split.
  - destruct ws as [|w ws]; [done|].
    by apply parseWords_of_lines; [apply split_unlines_crlf|].
  - intros Hlen. rewrite H1. by apply take_ge.
Qed.

Lemma parseWords_unlines_witness :
  Cards.parseWords (unlines [[99; 97; 116]; [100; 111; 103]]%N)
  = take 100 [[99; 97; 116]; [100; 111; 103]]%N.
Proof.
  refine (proj1 (parseWords_unlines [[99; 97; 116]; [100; 111; 103]]%N _)).
  assert (Hclean : ∀ w c d, 10%N ∉ w → head w = Some c → Cards.is_space c = false →
                    last w = Some d → Cards.is_space d = false → clean_word w).
  { intros w c d Hlf Hc Hsc Hd Hsd. split; [done|]. split; [by exists c | by exists d]. }
  apply List.Forall_cons; [|apply List.Forall_cons; [|apply List.Forall_nil]].
  - apply (Hclean _ 99%N 116%N); try reflexivity.
    apply (bool_decide_eq_true_1 _). vm_compute. reflexivity.
  - apply (Hclean _ 100%N 103%N); try reflexivity.
    apply (bool_decide_eq_true_1 _). vm_compute. reflexivity.
Defined.

(** X13.  Parsing is stable: the words [parseWords] returns are not
    empty, hold no line feed and have no white space at either end, and
    written one per line and parsed again they are the same words. *)
Theorem parseWords_stable (txt : Cards.jsstring) :
  Forall clean_word (Cards.parseWords txt)
  ∧ Cards.parseWords (unlines (Cards.parseWords txt)) = Cards.parseWords txt.
Proof.
  split; [apply parseWords_clean|].
  rewrite parseWords_unlines_take by apply parseWords_clean.
  apply take_ge, parseWords_length.
Qed.

(** X14.  A text of white space only, the empty text among them, has no
    words, and [loadTxt] throws "no words" on an ok response with such a
    text. *)
Theorem blank_text_has_no_words (txt : Cards.jsstring) (status : Z) :
  blank txt = true →
  Cards.parseWords txt = []
  ∧ Cards.loadTxt (Cards.Response true status txt) = inl Cards.NoWords.
Proof.
  intros Hb.
  assert (E : Cards.parseWords txt = []).
  { unfold Cards.parseWords. rewrite filter_nonempty_trim.
    by rewrite omap_blank by (by apply split_lines_blank). }
  split; [done|]. unfold Cards.loadTxt. simpl. by rewrite E.
Qed.

Lemma blank_text_has_no_words_witness :
  Cards.loadTxt (Cards.Response true 200 [32; 13; 10; 9; 10]%N) = inl Cards.NoWords.
Proof.
  apply (blank_text_has_no_words [32; 13; 10; 9; 10]%N 200). reflexivity.
Defined.

(** ** The store *)

Section StoreWrites.
Import Trainer.
Variable JSON_stringify : JSValue → Exc string.

Lemma saveStore_cases (data : StoreShape) (ls : Storage) :
  saveStore JSON_stringify data ls = ls
  ∨ ∃ text, JSON_stringify (store_to_js data) = Ret text
            ∧ denied ls = false ∧ (String.length text ≤ quota ls)%nat
            ∧ saveStore JSON_stringify data ls
              = mkStorage (<[STORAGE_KEY := text]> (items ls)) (quota ls) (denied ls).
Proof.
  unfold saveStore, setItem.
  destruct (JSON_stringify (store_to_js data)) as [text|] eqn:Hs; simpl; [|by left].
  destruct (denied ls) eqn:Hd; [by left|].
  destruct (Nat.ltb_spec (quota ls) (String.length text)); [by left|].
  right. exists text. repeat split; (done || lia).
Qed.

End StoreWrites.

(** X15.  [saveStore] writes under its own key only: every other item of
    the store, its quota and its access flag are as before.  When the
    store denies access, when the text exceeds the quota, or when
    [JSON.stringify] throws, the store is left exactly as it was and
    nothing is thrown. *)
Theorem saveStore_touches_one_key (JSON_stringify : Trainer.JSValue → Trainer.Exc string)
    (data : Trainer.StoreShape) (ls : Trainer.Storage) :
  (∀ k, k ≠ Trainer.STORAGE_KEY →
     Trainer.items (Trainer.saveStore JSON_stringify data ls) !! k = Trainer.items ls !! k)
  ∧ Trainer.quota (Trainer.saveStore JSON_stringify data ls) = Trainer.quota ls
  ∧ Trainer.denied (Trainer.saveStore JSON_stringify data ls) = Trainer.denied ls
  ∧ (Trainer.denied ls = true → Trainer.saveStore JSON_stringify data ls = ls)
  ∧ (JSON_stringify (Trainer.store_to_js data) = Trainer.Throw →
     Trainer.saveStore JSON_stringify data ls = ls)
  ∧ (∀ text, JSON_stringify (Trainer.store_to_js data) = Trainer.Ret text →
     (Trainer.quota ls < String.length text)%nat →
     Trainer.saveStore JSON_stringify data ls = ls).
Proof.
  split; [|split; [|split; [|split; [|split]]]].
  - intros k Hk. destruct (saveStore_cases JSON_stringify data ls) as [->|(t & _ & _ & _ & ->)];
      [done|]. simpl. by rewrite lookup_insert_ne.
  - by destruct (saveStore_cases JSON_stringify data ls) as [->|(t & _ & _ & _ & ->)].
  - by destruct (saveStore_cases JSON_stringify data ls) as [->|(t & _ & _ & _ & ->)].
  - intros Hd. unfold Trainer.saveStore, Trainer.setItem. rewrite Hd.
    by destruct (JSON_stringify _).
  - intros Hs. unfold Trainer.saveStore. by rewrite Hs.
  - intros text Hs Hq. unfold Trainer.saveStore, Trainer.setItem. rewrite Hs. simpl.
    destruct (Trainer.denied ls); [done|].
    destruct (Nat.ltb_spec (Trainer.quota ls) (String.length text)); [done | lia].
Qed.

(** X16.  The last write wins: when the store takes the second write, the
    store after two saves is the store after the second save alone,
    whether the first write went through or not. *)
Theorem saveStore_overwrites (JSON_stringify : Trainer.JSValue → Trainer.Exc string)
    (d1 d2 : Trainer.StoreShape) (ls : Trainer.Storage) (text : string) :
  JSON_stringify (Trainer.store_to_js d2) = Trainer.Ret text →
  Trainer.denied ls = false →
  (String.length text ≤ Trainer.quota ls)%nat →
  Trainer.saveStore JSON_stringify d2 (Trainer.saveStore JSON_stringify d1 ls)
  = Trainer.saveStore JSON_stringify d2 ls
  ∧ Trainer.items (Trainer.saveStore JSON_stringify d2 (Trainer.saveStore JSON_stringify d1 ls))
      !! Trainer.STORAGE_KEY = Some text.
Proof.
  intros Hs Hd Hq.
  rewrite (saveStore_written JSON_stringify d2 ls text) by done.
  destruct (saveStore_cases JSON_stringify d1 ls) as [->|(t1 & _ & _ & _ & ->)].
  - rewrite (saveStore_written JSON_stringify d2 ls text) by done.
    split; [done|]. simpl. apply lookup_insert_eq.
  - rewrite (saveStore_written JSON_stringify d2 _ text) by done. simpl.
    rewrite insert_insert_eq. split; [done|]. apply lookup_insert_eq.
Qed.

Lemma saveStore_overwrites_witness :
  Trainer.saveStore JSONRef.stringify
    (Trainer.mkStore (Trainer.statuses scenario_3) (Trainer.of_Z 1))
    (Trainer.saveStore JSONRef.stringify
       (Trainer.mkStore (Trainer.statuses scenario_1) (Trainer.of_Z 1))
       (Trainer.mkStorage ∅ 4096 false))
  = Trainer.saveStore JSONRef.stringify
      (Trainer.mkStore (Trainer.statuses scenario_3) (Trainer.of_Z 1))
      (Trainer.mkStorage ∅ 4096 false).
Proof.
  refine (proj1 (saveStore_overwrites JSONRef.stringify
    (Trainer.mkStore (Trainer.statuses scenario_1) (Trainer.of_Z 1))
    (Trainer.mkStore (Trainer.statuses scenario_3) (Trainer.of_Z 1))
    (Trainer.mkStorage ∅ 4096 false)
    (Trainer.try_catch
       (JSONRef.stringify
          (Trainer.store_to_js
             (Trainer.mkStore (Trainer.statuses scenario_3) (Trainer.of_Z 1))))
       EmptyString) _ _ _)).
  - vm_compute. reflexivity.
  - reflexivity.
  - vm_compute. lia.
Defined.

(** ** Starting from the store *)

Section Startup.
Import Trainer.
Variable words : list string.
Variable JSON_parse : string → Exc JSValue.
Variable JSON_stringify : JSValue → Exc string.
Variable ToNumber_other : JSValue → Exc JSNumber.

Local Abbreviation load := (loadStore words JSON_parse ToNumber_other).
Local Abbreviation clamped n x :=
  (Math_min (Math_max (or_zero x) (of_Z 0)) (of_Z (n - 1))).

(** What [loadStore] returns is [null] or built from a parsed value. *)
Lemma loadStore_cases (ls : Storage) :
  load ls = None
  ∨ ∃ parsed x, load ls = Some (mkStore
      (foldl (λ acc w, <[w := coerce_status (nullish (stored_status parsed w) JNull)]> acc) ∅ words)
      (clamped (len words) x)).
Proof.
  destruct (load ls) as [s|] eqn:Hload; [|by left]. right.
  destruct (denied ls) eqn:Hd.
  { rewrite (loadStore_absent words JSON_parse ToNumber_other ls) in Hload; [done | by left]. }
  destruct (items ls !! STORAGE_KEY) as [raw|] eqn:Hraw.
  2: { rewrite (loadStore_absent words JSON_parse ToNumber_other ls) in Hload;
         [done | right; by left]. }
  destruct (decide (raw = EmptyString)) as [->|Hne].
  { rewrite (loadStore_absent words JSON_parse ToNumber_other ls) in Hload;
      [done | right; by right]. }
  destruct (JSON_parse raw) as [parsed|] eqn:Hp.
  2: { rewrite (loadStore_unparsed words JSON_parse ToNumber_other ls raw) in Hload;
         [done | done | by left]. }
  assert (Hcases : parsed = JNull ∨ parsed = JUndefined
                   ∨ (parsed ≠ JNull ∧ parsed ≠ JUndefined)).
  { destruct parsed; auto. }
  destruct Hcases as [->|[->|[H1 H2]]].
  - rewrite (loadStore_unparsed words JSON_parse ToNumber_other ls raw) in Hload;
      [done | done | right; by left].
  - rewrite (loadStore_unparsed words JSON_parse ToNumber_other ls raw) in Hload;
      [done | done | right; by right].
  - destruct (Number ToNumber_other (opt_prop parsed "index")) as [x|] eqn:Hx.
    + exists parsed, x. rewrite <- Hload.
      by apply (loadStore_parsed words JSON_parse ToNumber_other ls raw parsed x).
    + by rewrite (loadStore_unconvertible words JSON_parse ToNumber_other ls raw parsed)
        in Hload.
Qed.

(** The clamp returns 0 or a positive number up to [n - 1]. *)
Lemma clamped_values (n : Z) (x : JSNumber) :
  0 < n →
  clamped n x = Finite 0
  ∨ ∃ q, clamped n x = Finite q ∧ (0 < q)%Q ∧ (q <= inject_Z (n - 1))%Q.
Proof.
  intros Hn.
  assert (H0 : Qle_bool 0 (inject_Z (n - 1)) = true).
  { change 0%Q with (inject_Z 0). rewrite Qle_bool_inject_Z. apply Z.leb_le. lia. }
  assert (Hz : Math_min (Math_max (of_Z 0) (of_Z 0)) (of_Z (n - 1)) = Finite 0).
  { simpl. unfold of_Z. change (inject_Z 0) with 0%Q. by rewrite H0. }
  assert (Htop : of_Z (n - 1) = Finite 0
                 ∨ ∃ q, of_Z (n - 1) = Finite q ∧ (0 < q)%Q ∧ (q <= inject_Z (n - 1))%Q).
  { destruct (decide (n = 1)) as [->|Hne]; [by left|]. right.
    exists (inject_Z (n - 1)). split; [done|]. split; [|apply Qle_refl].
    change 0%Q with (inject_Z 0). rewrite <- Zlt_Qlt. lia. }
  destruct x as [|[]|q]; simpl.
  - left. exact Hz.
  - left. exact Hz.
  - exact Htop.
  - destruct (Qeq_bool q 0); [left; exact Hz|]. simpl.
    destruct (Qle_bool q (inject_Z 0)) eqn:E1; simpl.
    + left. exact Hz.
    + destruct (Qle_bool q (inject_Z (n - 1))) eqn:E2; [|exact Htop].
      right. exists q. split; [done|]. split; [|by apply Qle_bool_iff].
      apply Qnot_le_lt. intros Hle. apply Qle_bool_iff in Hle.
      change 0%Q with (inject_Z 0) in Hle. congruence.
Qed.

Lemma clamped_again (n : Z) (x : JSNumber) :
  0 < n → clamped n (clamped n x) = clamped n x.
Proof.
  intros Hn. destruct (clamped_values n x Hn) as [E|(q & E & Hpos & Hle)]; rewrite E.
  - simpl. unfold of_Z. change (inject_Z 0) with 0%Q.
    assert (H0 : Qle_bool 0 (inject_Z (n - 1)) = true).
    { change 0%Q with (inject_Z 0). rewrite Qle_bool_inject_Z. apply Z.leb_le. lia. }
    by rewrite H0.
  - by apply clamped_keeps.
Qed.

(** Saving, then loading, for a store that takes the write. *)
Lemma save_then_load (s : StoreShape) (ls : Storage) (text : string) :
  Forall (λ w, is_Some (store_statuses s !! w)) words →
  JSON_stringify (store_to_js s) = Ret text → text ≠ EmptyString →
  JSON_parse text = Ret (store_to_js s) →
  denied ls = false → (String.length text ≤ quota ls)%nat →
  load (saveStore JSON_stringify s ls)
  = Some (mkStore (filter (λ kv, kv.1 ∈ words) (store_statuses s))
                  (clamped (len words) (store_index s))).
Proof.
  intros Hall Hs Htext Hp Hd Hq.
  rewrite (saveStore_written JSON_stringify s ls text) by done.
  rewrite (loadStore_parsed words JSON_parse ToNumber_other _ text (store_to_js s)
             (store_index s)); try done.
  - by rewrite (loaded_statuses words s Hall).
  - simpl. apply lookup_insert_eq.
Qed.

End Startup.

Section StartupFacts.
Import Trainer.
Variable words : list string.
Variable JSON_parse : string → Exc JSValue.
Variable JSON_stringify : JSValue → Exc string.
Variable ToNumber_other : JSValue → Exc JSNumber.

Local Abbreviation clamped n x :=
  (Math_min (Math_max (or_zero x) (of_Z 0)) (of_Z (n - 1))).

Lemma loaded_entries (parsed : JSValue) (k : string) :
  is_Some (foldl (λ acc w, <[w := coerce_status (nullish (stored_status parsed w) JNull)]> acc)
             (∅ : gmap string Status) words !! k)
  ↔ k ∈ words.
Proof.
  rewrite (lookup_foldl_insert
    (λ w, coerce_status (nullish (stored_status parsed w) JNull))).
  destruct (decide (k ∈ words)); [by split; eauto|].
  rewrite lookup_empty. split; [by intros [? ?] | done].
Qed.

Lemma clamped_valid_index (i : Z) :
  0 ≤ i < len words → clamped (len words) (of_Z i) = of_Z i.
Proof.
  intros Hi. rewrite clamped_integer by lia. unfold clamp_index, of_Z.
  change 0%Q with (inject_Z 0). rewrite !Qle_bool_inject_Z.
  destruct (Z.leb_spec 0 i); [|lia]. destruct (Z.leb_spec i (len words - 1)); [|lia]. done.
Qed.

Lemma in_index_range_integer (i : Z) :
  in_index_range (len words) (of_Z i) → 0 ≤ i < len words.
Proof.
  intros (q & [= <-] & Hlo & Hhi). change 0%Q with (inject_Z 0) in Hlo.
  rewrite <- Zle_Qle in Hlo, Hhi. lia.
Qed.

Lemma start_entries (ls : Storage) (k : string) :
  is_Some (start_statuses words JSON_parse ToNumber_other ls !! k) ↔ k ∈ words.
Proof.
  unfold start_statuses.
  destruct (loadStore_cases words JSON_parse ToNumber_other ls) as [->|(parsed & x & ->)].
  - rewrite cleared_lookup. destruct (decide (k ∈ words)); split; try done; by intros [? ?].
  - simpl. apply loaded_entries.
Qed.

Lemma start_index_range (ls : Storage) :
  0 < len words →
  in_index_range (len words) (start_index words JSON_parse ToNumber_other ls).
Proof.
  intros Hn. unfold start_index.
  destruct (loadStore_cases words JSON_parse ToNumber_other ls) as [->|(parsed & x & ->)].
  - exists 0%Q. split; [done|]. split; [apply Qle_refl|].
    change 0%Q with (inject_Z 0). rewrite <- Zle_Qle. lia.
  - simpl. by apply clamped_in_range.
Qed.

End StartupFacts.

(** X17.  Whatever the store holds, the component starts well-formed: the
    initial statuses have an entry for each word and for nothing else,
    and the initial index is a number of [0, wordCount-1]; when it is an
    integer, the initial state satisfies the invariant of the handlers. *)
Theorem startup_is_well_formed (words : list string)
    (JSON_parse : string → Trainer.Exc Trainer.JSValue)
    (ToNumber_other : Trainer.JSValue → Trainer.Exc Trainer.JSNumber) (ls : Trainer.Storage) :
  0 < len words →
  (∀ w, is_Some (Trainer.start_statuses words JSON_parse ToNumber_other ls !! w) ↔ w ∈ words)
  ∧ in_index_range (len words) (Trainer.start_index words JSON_parse ToNumber_other ls)
  ∧ (∀ i, Trainer.start_index words JSON_parse ToNumber_other ls = Trainer.of_Z i →
       well_formed words
         (Trainer.mkState (Trainer.start_statuses words JSON_parse ToNumber_other ls)
            i Trainer.trainer)).
Proof.
  intros Hn. split; [apply start_entries|]. split; [by apply start_index_range|].
  intros i Hi. split; simpl; [|apply start_entries].
  apply in_index_range_integer. rewrite <- Hi. by apply start_index_range.
Qed.

Lemma startup_is_well_formed_witness :
  in_index_range (len Trainer.WORDS)
    (Trainer.start_index Trainer.WORDS JSONRef.parse JSONRef.to_number_other (holding "[1,2")).
Proof.
  apply (startup_is_well_formed Trainer.WORDS JSONRef.parse JSONRef.to_number_other
           (holding "[1,2")).
  reflexivity.
Defined.

(** X18.  A reload restores the session: when the effect has saved a
    well-formed state (the store taking the write, [JSON.parse] reading
    back what [JSON.stringify] wrote), the initializers of the next start
    return the statuses and the index of that state. *)
Theorem reload_restores_session (words : list string)
    (JSON_parse : string → Trainer.Exc Trainer.JSValue)
    (JSON_stringify : Trainer.JSValue → Trainer.Exc string)
    (ToNumber_other : Trainer.JSValue → Trainer.Exc Trainer.JSNumber)
    (st : Trainer.State) (ls : Trainer.Storage) (text : string) :
  well_formed words st →
  JSON_stringify
    (Trainer.store_to_js (Trainer.mkStore (Trainer.statuses st) (Trainer.of_Z (Trainer.index st))))
  = Trainer.Ret text →
  text ≠ EmptyString →
  JSON_parse text
  = Trainer.Ret
      (Trainer.store_to_js (Trainer.mkStore (Trainer.statuses st) (Trainer.of_Z (Trainer.index st)))) →
  Trainer.denied ls = false →
  (String.length text ≤ Trainer.quota ls)%nat →
  Trainer.start_statuses words JSON_parse ToNumber_other (Trainer.persist JSON_stringify st ls)
  = Trainer.statuses st
  ∧ Trainer.start_index words JSON_parse ToNumber_other (Trainer.persist JSON_stringify st ls)
    = Trainer.of_Z (Trainer.index st).
Proof.
  intros [Hi Hdom] Hs Htext Hp Hd Hq.
  unfold Trainer.start_statuses, Trainer.start_index, Trainer.persist.
  rewrite (save_then_load words JSON_parse JSON_stringify ToNumber_other _ ls text);
    try done.
  - simpl. split.
    + apply filter_words_id. intros k. apply Hdom.
    + by apply clamped_valid_index.
  - apply Forall_forall. intros w Hw. simpl. by apply Hdom.
Qed.

Lemma reload_restores_session_witness :
  Trainer.start_statuses scenario_words JSONRef.parse JSONRef.to_number_other
    (Trainer.persist JSONRef.stringify scenario_3 (Trainer.mkStorage ∅ 4096 false))
  = Trainer.statuses scenario_3.
Proof.
  refine (proj1 (reload_restores_session scenario_words JSONRef.parse JSONRef.stringify
    JSONRef.to_number_other scenario_3 (Trainer.mkStorage ∅ 4096 false)
    (Trainer.try_catch
       (JSONRef.stringify
          (Trainer.store_to_js
             (Trainer.mkStore (Trainer.statuses scenario_3)
                (Trainer.of_Z (Trainer.index scenario_3)))))
       EmptyString) _ _ _ _ _ _)).
  - unfold scenario_3, scenario_2, scenario_1, scenario_0.
    do 3 apply handleMark_well_formed. apply initial_well_formed. reflexivity.
  - vm_compute. reflexivity.
  - vm_compute. discriminate.
  - vm_compute. reflexivity.
  - reflexivity.
  - vm_compute. lia.
Defined.

(** X19.  What [loadStore] returns is already normal: saved and loaded
    again (the store taking the write, [JSON.parse] reading back what
    [JSON.stringify] wrote) it comes back unchanged. *)
Theorem loaded_state_is_stable (words : list string)
    (JSON_parse : string → Trainer.Exc Trainer.JSValue)
    (JSON_stringify : Trainer.JSValue → Trainer.Exc string)
    (ToNumber_other : Trainer.JSValue → Trainer.Exc Trainer.JSNumber)
    (ls0 ls : Trainer.Storage) (s : Trainer.StoreShape) (text : string) :
  0 < len words →
  Trainer.loadStore words JSON_parse ToNumber_other ls0 = Some s →
  JSON_stringify (Trainer.store_to_js s) = Trainer.Ret text →
  text ≠ EmptyString →
  JSON_parse text = Trainer.Ret (Trainer.store_to_js s) →
  Trainer.denied ls = false →
  (String.length text ≤ Trainer.quota ls)%nat →
  Trainer.loadStore words JSON_parse ToNumber_other (Trainer.saveStore JSON_stringify s ls)
  = Some s.
Proof.
  intros Hn Hload Hs Htext Hp Hd Hq.
  destruct (loadStore_cases words JSON_parse ToNumber_other ls0) as [E|(parsed & x & E)];
    rewrite E in Hload; [done|]. injection Hload as <-.
  rewrite (save_then_load words JSON_parse JSON_stringify ToNumber_other _ ls text);
    try done.
  - simpl. rewrite clamped_again by done. f_equal. f_equal.
    apply filter_words_id. intros k. apply loaded_entries.
  - apply Forall_forall. intros w Hw. simpl. by apply loaded_entries.
Qed.

Lemma loaded_state_is_stable_witness :
  Trainer.loadStore scenario_words JSONRef.parse JSONRef.to_number_other
    (Trainer.saveStore JSONRef.stringify
       (Trainer.mkStore (Trainer.cleared scenario_words) (Trainer.of_Z 0))
       (Trainer.mkStorage ∅ 4096 false))
  = Some (Trainer.mkStore (Trainer.cleared scenario_words) (Trainer.of_Z 0)).
Proof.
  apply (loaded_state_is_stable scenario_words JSONRef.parse JSONRef.stringify
    JSONRef.to_number_other (holding "[7,8,9]") (Trainer.mkStorage ∅ 4096 false)
    (Trainer.mkStore (Trainer.cleared scenario_words) (Trainer.of_Z 0))
    (Trainer.try_catch
       (JSONRef.stringify
          (Trainer.store_to_js
             (Trainer.mkStore (Trainer.cleared scenario_words) (Trainer.of_Z 0))))
       EmptyString)).
  - reflexivity.
  - vm_compute. reflexivity.
  - vm_compute. reflexivity.
  - vm_compute. discriminate.
  - vm_compute. reflexivity.
  - reflexivity.
  - vm_compute. lia.
Defined.

(** ** Stepping back and forth *)

Section BackAndForth.
Import Cards.

Lemma minus_one_mod (n i : Z) :
  0 ≤ i < n → (if 0 <? i then i - 1 else n - 1) = (i - 1) mod n.
Proof.
  intros Hi. destruct (Z.ltb_spec 0 i).
  - symmetry. apply Z.mod_small. lia.
  - assert (i = 0) as -> by lia. change (0 - 1) with (-1).
    rewrite <- (Z_mod_plus_full (-1) 1 n), Z.mul_1_l.
    rewrite Z.mod_small by lia. lia.
Qed.

Lemma goPrev_iterated (c : State) (k : nat) :
  on_a_word c →
  Nat.iter k goPrev c
  = mkState (words c) (statuses c) ((index c - Z.of_nat k) mod len (words c)).
Proof.
  intros Hc. unfold on_a_word in Hc. induction k as [|k IH].
  - simpl. rewrite Z.sub_0_r, Z.mod_small by done. by destruct c.
  - rewrite Nat.iter_succ, IH. unfold goPrev, setIndex. simpl. f_equal.
    rewrite minus_one_mod by (apply Z.mod_pos_bound; lia).
    rewrite Zminus_mod_idemp_l. f_equal. lia.
Qed.

End BackAndForth.

Section TrainerBack.
Import Trainer.

Lemma prev_iterated (st : State) (k : nat) :
  0 ≤ index st →
  Nat.iter k prev st = mkState (statuses st) (Z.max 0 (index st - Z.of_nat k)) (view st).
Proof.
  intros Hi. induction k as [|k IH].
  - simpl. rewrite Z.sub_0_r, Z.max_r by done. by destruct st.
  - rewrite Nat.iter_succ, IH. unfold prev, setIndex. simpl. f_equal.
    destruct (Z.ltb_spec 0 (Z.max 0 (index st - Z.of_nat k))); lia.
Qed.

End TrainerBack.

(** X20.  In [main.tsx] Prev undoes Next and Next undoes Prev wherever
    both stay inside the list: Prev after Next gives the state back when
    the index is not on the last word, Next after Prev when it is not on
    the first. *)
Theorem prev_undoes_next (words : list string) (st : Trainer.State) :
  (0 ≤ Trainer.index st < len words - 1 → Trainer.prev (Trainer.next words st) = st)
  ∧ (0 < Trainer.index st < len words → Trainer.next words (Trainer.prev st) = st).
Proof.
  split.
  - intros Hi. rewrite next_inner by lia. unfold Trainer.prev, Trainer.setIndex. simpl.
    destruct (Z.ltb_spec 0 (Trainer.index st + 1)); [|lia].
    destruct st as [sts i v]. simpl. f_equal. lia.
  - intros Hi. rewrite next_inner.
    + unfold Trainer.prev, Trainer.setIndex. simpl.
      destruct (Z.ltb_spec 0 (Trainer.index st)); [|lia].
      destruct st as [sts i v]. simpl. f_equal. lia.
    + unfold Trainer.prev. simpl. destruct (Z.ltb_spec 0 (Trainer.index st)); lia.
Qed.

(** X21.  Prev, pressed again and again.  In [App.tsx] it goes round the
    list: after as many presses as there are words the state is the one
    it started from.  In [main.tsx] it stops at the first word: after [k]
    presses the index is [max 0 (index - k)], and from then on Prev
    changes nothing. *)
Theorem prev_wraps_or_stops (c : Cards.State) (st : Trainer.State) (k : nat) :
  on_a_word c → 0 ≤ Trainer.index st →
  Nat.iter (length (Cards.words c)) Cards.goPrev c = c
  ∧ Cards.index (Nat.iter k Cards.goPrev c)
    = (Cards.index c - Z.of_nat k) mod len (Cards.words c)
  ∧ Trainer.index (Nat.iter k Trainer.prev st) = Z.max 0 (Trainer.index st - Z.of_nat k)
  ∧ (Trainer.index st ≤ Z.of_nat k →
     Trainer.prev (Nat.iter k Trainer.prev st) = Nat.iter k Trainer.prev st).
Proof.
  intros Hc Hi. split; [|split; [|split]].
  - rewrite goPrev_iterated by done. fold (len (Cards.words c)).
    replace (Cards.index c - len (Cards.words c))
      with (Cards.index c + (-1) * len (Cards.words c)) by lia.
    rewrite Z_mod_plus_full, Z.mod_small by done. by destruct c.
  - by rewrite goPrev_iterated.
  - by rewrite prev_iterated.
  - intros Hk. rewrite <- Nat.iter_succ, !prev_iterated by done. f_equal. lia.
Qed.

Lemma prev_wraps_or_stops_witness :
  Nat.iter 3 Cards.goPrev (Cards.mkState [[97%N]; [98%N]; [99%N]] ∅ 1)
  = Cards.mkState [[97%N]; [98%N]; [99%N]] ∅ 1.
Proof.
  refine (proj1 (prev_wraps_or_stops (Cards.mkState [[97%N]; [98%N]; [99%N]] ∅ 1)
                   (Trainer.initial Trainer.WORDS) 0 _ _)).
  - vm_compute. split; [discriminate | reflexivity].
  - vm_compute. discriminate.
Defined.
